(** * go-common: response serialization, validation glue and translation loading

    A shallow embedding of [web/base_controller.go] (package [web]) and of the
    translation loader (package [localize]), with the properties of the
    natural-language specification stated and settled against it.

    Conventions of the embedding:
    - a Go [int] status code is a [Z] (no arithmetic is performed on it);
    - a Go [string] is a [string];
    - the [error] interface is an inductive with the nil interface, the
      dynamic type [*AppError], and every other dynamic type (carrying the text
      its [Error()] method renders);
    - the controller is a record that is passed and returned explicitly; every
      [ServeJson] call appends what it writes to the controller's output;
    - a Go panic is the [Panics] outcome;
    - [tracelog] calls only write to the process log and are left out of the
      controller model; the loader records the error logs in its event trace. *)

From Stdlib Require Import Ascii String DecimalString DecimalZ.
From stdpp Require Import gmap strings list.

Open Scope Z_scope.

(** Outcome of a call that may panic. *)
Inductive outcome (A : Type) : Type :=
| Returns (a : A)
| Panics.
Arguments Returns {A} a.
Arguments Panics {A}.

(* ===================================================================== *)
(** * Package [web] *)
(* ===================================================================== *)

Module web.

(** Modelled from the spec: the [AppError] type of the [errors] package is
    not part of the source at hand. Spec, data model: an AppError is
    {code: integer (0 = unset/default), message: string}; [ErrorCode()] yields
    the code and [Error()] the message. *)
Record AppError : Type := mkAppError {
  ErrorCode : Z;
  Error : string
}.

(** The Go [error] interface, by dynamic type. *)
Inductive error : Type :=
| nil_error
| app_error (e : AppError)
| other_error (text : string).

(** [err.Error()] on an interface value; a nil interface has no method to
    call and the call panics. *)
Definition error_Error (err : error) : outcome string :=
  match err with
  | nil_error => Panics
  | app_error e => Returns (Error e)
  | other_error text => Returns text
  end.

(** [MessageResponse] provides the document structure for sending a list of
    messages. *)
Record MessageResponse : Type := mkMessageResponse {
  Messages : list string
}.

(** One response written by [ServeJson]: the status that was set on the
    output and the JSON document taken from [Data["json"]]. *)
Record Emitted : Type := mkEmitted {
  emitted_status : Z;
  emitted_body : option MessageResponse
}.

(** The part of [BaseController] (and of the embedded [beego.Controller])
    that the serving functions read and write. *)
Record BaseController : Type := mkController {
  Status : Z;                          (* this.Ctx.Output status *)
  Data_json : option MessageResponse;  (* this.Data["json"] *)
  Output : list Emitted                (* what ServeJson has written so far *)
}.

Definition SetStatus (status : Z) (this : BaseController) : BaseController :=
  {| Status := status; Data_json := Data_json this; Output := Output this |}.

Definition set_Data_json (v : MessageResponse) (this : BaseController)
  : BaseController :=
  {| Status := Status this; Data_json := Some v; Output := Output this |}.

(** [beego.Controller.ServeJson]: writes [Data["json"]] under the current
    status. *)
Definition ServeJson (this : BaseController) : BaseController :=
  {| Status := Status this;
     Data_json := Data_json this;
     Output := Output this ++
               [ {| emitted_status := Status this;
                    emitted_body := Data_json this |} ] |}.

(** A field of the target structure as reflection shows it: its name and its
    tag, the tag as the key/value pairs it declares. *)
Record StructField : Type := mkField {
  Name : string;
  Tag : list (string * string)
}.

(** [reflect.StructTag.Get]: the value of the first pair with that key, the
    empty string when the tag has no such key. *)
Fixpoint Tag_Get (tag : list (string * string)) (key : string) : string :=
  match tag with
  | [] => ""
  | (k, v) :: rest => if bool_decide (k = key) then v else Tag_Get rest key
  end.

(** [validation.ValidationError], the two members the controller reads. *)
Record ValidationError : Type := mkValidationError {
  Field : string;
  Message : string
}.

(** What [valid.Valid(params)] leaves behind: its two results and the
    [Errors] member of the validation value. *)
Record ValidResult : Type := mkValidResult {
  valid_ok : bool;
  valid_err : error;
  Errors : list ValidationError
}.

(** [this'] is [this] after exactly one more response was written, with
    that status and that list of messages as its document. *)
Definition emits (this this' : BaseController) (status : Z)
    (msgs : list string) : Prop :=
  Output this' =
  Output this ++ [ {| emitted_status := status;
                      emitted_body := Some {| Messages := msgs |} |} ].

Definition is_AppError (err : error) : bool :=
  match err with app_error _ => true | _ => false end.

(** [err == nil]. *)
Definition is_nil (err : error) : bool :=
  match err with nil_error => true | _ => false end.

(** Constants of the error taxonomy (package [errors]); their values are not
    part of the source at hand, so the controller is stated over any choice
    of them. *)
Class ErrorTaxonomy : Type := mkErrorTaxonomy {
  APP_ERROR_CODE : Z;
  APP_ERROR_MSG : string;
  VALIDATION_ERROR_CODE : Z;
  VALIDATION_ERROR_MSG : string
}.

Section Controller.

Context `{ErrorTaxonomy}.

(** ServeMessagesWithStatus serves a HTTP status and messages. *)
Definition ServeMessagesWithStatus (status : Z) (msgs : list string)
    (this : BaseController) : BaseController :=
  let this := SetStatus status this in
  let response := {| Messages := msgs |} in
  let this := set_Data_json response this in
  ServeJson this.

(** ServeMessageWithStatus serves a HTTP status and message. *)
Definition ServeMessageWithStatus (status : Z) (msg : string)
    (this : BaseController) : BaseController :=
  ServeMessagesWithStatus status [msg] this.

(** ServeError serves an error interface object. *)
Definition ServeError (err : error) (this : BaseController) : BaseController :=
  match err with
  | app_error e =>
      if negb (ErrorCode e =? 0)
      then ServeMessageWithStatus (ErrorCode e) (Error e) this
      else ServeMessageWithStatus APP_ERROR_CODE (Error e) this
  | _ => ServeMessageWithStatus APP_ERROR_CODE APP_ERROR_MSG this
  end.

(** ServeErrorResponse serves an error interface object. The default branch
    calls [err.Error()], which panics on the nil interface. *)
Definition ServeErrorResponse (err : error) (this : BaseController)
  : outcome BaseController :=
  match err with
  | app_error e =>
      if negb (ErrorCode e =? 0)
      then Returns (ServeMessageWithStatus (ErrorCode e) (Error e) this)
      else Returns (ServeMessageWithStatus APP_ERROR_CODE (Error e) this)
  | _ =>
      match error_Error err with
      | Returns text => Returns (ServeMessageWithStatus APP_ERROR_CODE text this)
      | Panics => Panics
      end
  end.

(** ServeAppError serves a generic application error. *)
Definition ServeAppError (this : BaseController) : BaseController :=
  ServeMessageWithStatus APP_ERROR_CODE APP_ERROR_MSG this.

(** The first loop of [ParseAndValidate]: "Build a map of the error
    messages", one entry per declared field, keyed by the field's name and
    holding the value of its [error] tag. *)
Definition build_messages2 (fields : list StructField) : gmap string string :=
  fold_left (fun messages2 typeField =>
               <[ Name typeField := Tag_Get (Tag typeField) "error" ]> messages2)
            fields ∅.

(** The second loop of [ParseAndValidate]: "Build the error response". *)
Definition build_errors (messages2 : gmap string string)
    (validErrors : list ValidationError) : list string :=
  fold_left (fun errors err =>
               match messages2 !! Field err with
               | Some message => errors ++ [message]
               | None => errors ++ [Message err]
               end)
            validErrors [].

Section ParseAndValidate.

(** The target structure, the form binder and the validator are the
    framework's: [ParseForm] binds the request held by the controller onto
    the parameters, in place, and returns an error (the result here is the
    parameters afterwards and that error); [Valid] runs the validator on
    the parameters; [Fields] is what reflection enumerates, in declaration
    order. *)
Variable Params : Type.
Variable ParseForm : BaseController -> Params -> Params * error.
Variable Valid : Params -> ValidResult.
Variable Fields : Params -> list StructField.

(** ParseAndValidate is used to parse any form and query parameters from the
    request and validate the values. *)
Definition ParseAndValidate (params : Params) (this : BaseController)
  : bool * BaseController :=
  let '(params, err) := ParseForm this params in
  if negb (is_nil err) then
    (false, ServeMessageWithStatus VALIDATION_ERROR_CODE VALIDATION_ERROR_MSG this)
  else
    let valid := Valid params in
    if negb (is_nil (valid_err valid)) then
      (false, ServeMessageWithStatus VALIDATION_ERROR_CODE VALIDATION_ERROR_MSG this)
    else if negb (valid_ok valid) then
      let messages2 := build_messages2 (Fields params) in
      let errors := build_errors messages2 (Errors valid) in
      (false, ServeMessagesWithStatus VALIDATION_ERROR_CODE errors this)
    else (true, this).

End ParseAndValidate.

(** Modelled from the spec: [helper.CatchPanic] is not part of the source at
    hand. Spec, PanicGuard: if an unrecovered runtime fault occurred it is
    intercepted, converted into a non-nil value assigned through [outErr],
    and the guard reports it; if no fault occurred it does nothing. [fault]
    is the value the runtime is unwinding with, if any; [err] is the variable
    the caller's pointer refers to. The result is that variable afterwards
    and whether a fault was caught. *)
Definition helper_CatchPanic (fault : option string) (err : error)
  : error * bool :=
  match fault with
  | Some r => (other_error r, true)
  | None => (err, false)
  end.

(** CatchPanic is used to stop and process panics before they reach the Go
    runtime. *)
Definition CatchPanic (fault : option string) (err : error)
    (this : BaseController) : error * BaseController :=
  let '(err, caught) := helper_CatchPanic fault err in
  if caught then (err, ServeAppError this) else (err, this).

End Controller.

(** ** Notions used to state the properties *)

(** The message list as the data-model invariant of the specification words
    it: one pass over the declared fields, in declaration order, emitting for
    each field the messages of the failures reported on it. Used only to
    compare with what the code emits. *)
Definition declaration_order_errors (fields : list StructField)
    (validErrors : list ValidationError) : list string :=
  flat_map (fun typeField =>
              build_errors (build_messages2 fields)
                (filter (fun err => Field err = Name typeField) validErrors))
           fields.

(** The message one reported failure contributes. *)
Definition message_of (messages2 : gmap string string) (err : ValidationError)
  : string :=
  match messages2 !! Field err with
  | Some message => message
  | None => Message err
  end.

(** Values of the taxonomy constants used where a closed example needs
    some; nothing depends on the particular numbers. *)
Definition sample_taxonomy : ErrorTaxonomy :=
  {| APP_ERROR_CODE := 500;
     APP_ERROR_MSG := "An Application Error Has Occured";
     VALIDATION_ERROR_CODE := 409;
     VALIDATION_ERROR_MSG := "Validation Errors Occurred" |}.

(** Binding failed, or the validator itself failed on the bound
    parameters. *)
Definition short_circuits (Params : Type)
    (ParseForm : BaseController -> Params -> Params * error)
    (Valid : Params -> ValidResult) (params : Params)
    (this : BaseController) : Prop :=
  (ParseForm this params).2 <> nil_error \/
  valid_err (Valid (ParseForm this params).1) <> nil_error.

(** ** Concrete inputs *)

(** Two declared fields, [A] with the override "custom A" and [B] with an
    empty override, and a report with a failure on each. *)
Definition field_A : StructField :=
  {| Name := "A"; Tag := [("form", "a"); ("error", "custom A")] |}.
Definition field_B : StructField :=
  {| Name := "B"; Tag := [("form", "b"); ("error", "")] |}.
Definition field_B' : StructField :=
  {| Name := "B"; Tag := [("error", "custom B")] |}.
Definition failure_A : ValidationError := {| Field := "A"; Message := "m_a" |}.
Definition failure_B : ValidationError := {| Field := "B"; Message := "m_b" |}.

Definition reports (validErrors : list ValidationError) (params : unit)
  : ValidResult :=
  {| valid_ok := false; valid_err := nil_error; Errors := validErrors |}.

Definition passing_binder (this : BaseController) (params : unit)
  : unit * error := (params, nil_error).

Definition blank_controller : BaseController :=
  {| Status := 200; Data_json := None; Output := [] |}.

(** A binder that always fails and a validator that itself fails. *)
Definition failing_binder (this : BaseController) (params : unit)
  : unit * error := (params, other_error "bad form").

Definition failing_validator (params : unit) : ValidResult :=
  {| valid_ok := false; valid_err := other_error "bad rule"; Errors := [] |}.

(** ** The other serving functions *)

(** The constants of the error taxonomy that [ServeUnAuthorized] uses. *)
Class AuthTaxonomy : Type := mkAuthTaxonomy {
  UNAUTHORIZED_ERROR_CODE : Z;
  UNAUTHORIZED_ERROR_MSG : string
}.

(** [validation.ValidationError.String] on a non-nil receiver: the message. *)
Definition ValidationError_String (e : ValidationError) : string := Message e.

(** The loop of [ServeValidationErrors]: [response[index] = ...] for each
    entry in turn. An entry is a pointer; reading [Field] through a nil one
    panics. *)
Fixpoint ServeValidationErrors_loop (index : nat)
    (validationErrors : list (option ValidationError)) (response : list string)
  : outcome (list string) :=
  match validationErrors with
  | [] => Returns response
  | None :: _ => Panics
  | Some validationError :: rest =>
      ServeValidationErrors_loop (S index) rest
        (<[ index := Field validationError +:+ ": " +:+
                     ValidationError_String validationError ]> response)
  end.

Section MoreServing.

Context `{ErrorTaxonomy} `{AuthTaxonomy}.

(** ServeUnAuthorized returns an Unauthorized error. *)
Definition ServeUnAuthorized (this : BaseController) : BaseController :=
  ServeMessageWithStatus UNAUTHORIZED_ERROR_CODE UNAUTHORIZED_ERROR_MSG this.

(** ServeValidationError returns a Validation Error's list of messages with
    a validation err code. *)
Definition ServeValidationError (this : BaseController) : BaseController :=
  let this := SetStatus VALIDATION_ERROR_CODE this in
  let msgs := {| Messages := [VALIDATION_ERROR_MSG] |} in
  let this := set_Data_json msgs this in
  ServeJson this.

(** ServeValidationErrors returns a Validation Error's list of messages with
    a validation err code. *)
Definition ServeValidationErrors
    (validationErrors : list (option ValidationError)) (this : BaseController)
  : outcome BaseController :=
  let this := SetStatus VALIDATION_ERROR_CODE this in
  let response := replicate (length validationErrors) "" in
  match ServeValidationErrors_loop 0 validationErrors response with
  | Panics => Panics
  | Returns response =>
      let msgs := {| Messages := response |} in
      let this := set_Data_json msgs this in
      Returns (ServeJson this)
  end.

End MoreServing.

(** [this'] is [this] untouched, or [this] after exactly one more response
    was written, that response carrying the status and the document the
    controller is left with. *)
Definition at_most_one_response (this this' : BaseController) : Prop :=
  this' = this \/
  Output this' =
  Output this ++ [ {| emitted_status := Status this';
                      emitted_body := Data_json this' |} ].

(** The last declared field with a given name, if any. *)
Definition last_declared (fields : list StructField) (name : string)
  : option StructField :=
  last (List.filter (fun typeField => String.eqb (Name typeField) name) fields).

Definition sample_auth : AuthTaxonomy :=
  {| UNAUTHORIZED_ERROR_CODE := 401;
     UNAUTHORIZED_ERROR_MSG := "Unauthorized" |}.

End web.

(* ===================================================================== *)
(** * Package [web]: objects and headers *)
(* ===================================================================== *)

(** The functions of [base_controller.go] that serve an arbitrary object or
    set a response header. The controller of [web] above only ever holds a
    [MessageResponse] and no header; here it holds any document and the
    header calls made on its output. *)
Module web_cache.

Definition CACHE_CONTROL_HEADER : string := "Cache-control".

(** [fmt.Sprintf("%d", n)]: the decimal numeral, with a minus sign below
    zero. *)
Definition Sprintf_d (n : Z) : string :=
  NilZero.string_of_int (Z.to_int n).

(** [fmt.Sprintf("private, must-revalidate, max-age=%d", seconds)]. *)
Definition cache_directive (seconds : Z) : string :=
  "private, must-revalidate, max-age=" +:+ Sprintf_d seconds.

(** Reading a header value back: the rest of [s] after [prefix], and the
    number of seconds a cache directive grants. *)
Fixpoint strip_prefix (prefix s : string) : option string :=
  match prefix, s with
  | EmptyString, _ => Some s
  | String a prefix', String b s' =>
      if Ascii.eqb a b then strip_prefix prefix' s' else None
  | String _ _, EmptyString => None
  end.

Definition max_age (value : string) : option Z :=
  match strip_prefix "private, must-revalidate, max-age=" value with
  | Some digits => option_map Z.of_int (NilZero.int_of_string digits)
  | None => None
  end.

Section Payload.

(** The Go values a handler serves. *)
Variable Obj : Type.

(** What [Data["json"]] holds. *)
Inductive Json : Type :=
| json_obj (obj : Obj)          (* the caller's object *)
| json_blank_model              (* map[string]string{} *)
| json_blank_model_list.        (* []map[string]string{} *)

(** One response written by [ServeJson]: the status and the header calls
    made before it, and the document. *)
Record Written : Type := mkWritten {
  written_status : Z;
  written_headers : list (string * string);
  written_body : option Json
}.

Record Controller : Type := mkController {
  Ctx_Status : Z;                         (* this.Ctx.Output status *)
  Ctx_Headers : list (string * string);   (* calls of this.Ctx.Output.Header, in order *)
  Data : option Json;                     (* this.Data["json"] *)
  Responses : list Written                (* what ServeJson has written so far *)
}.

(** [this.Ctx.Output.Header(key, val)]. *)
Definition Header (key val : string) (this : Controller) : Controller :=
  {| Ctx_Status := Ctx_Status this;
     Ctx_Headers := Ctx_Headers this ++ [(key, val)];
     Data := Data this;
     Responses := Responses this |}.

Definition set_Data (v : Json) (this : Controller) : Controller :=
  {| Ctx_Status := Ctx_Status this;
     Ctx_Headers := Ctx_Headers this;
     Data := Some v;
     Responses := Responses this |}.

(** [beego.Controller.ServeJson]. *)
Definition ServeJson (this : Controller) : Controller :=
  {| Ctx_Status := Ctx_Status this;
     Ctx_Headers := Ctx_Headers this;
     Data := Data this;
     Responses := Responses this ++
                  [ {| written_status := Ctx_Status this;
                       written_headers := Ctx_Headers this;
                       written_body := Data this |} ] |}.

(** CacheOutput outputs the cache control header for seconds passed in. *)
Definition CacheOutput (seconds : Z) (this : Controller) : Controller :=
  Header CACHE_CONTROL_HEADER (cache_directive seconds) this.

(** ServeBlankModel serves an empty key/value pair map as Json. *)
Definition ServeBlankModel (this : Controller) : Controller :=
  ServeJson (set_Data json_blank_model this).

(** ServeBlankModelList serves an empty slice of key/value pair maps as
    Json. *)
Definition ServeBlankModelList (this : Controller) : Controller :=
  ServeJson (set_Data json_blank_model_list this).

(** ServeJsonWithCache marshals the specified object as JSON specifying
    cache time. *)
Definition ServeJsonWithCache (obj : Obj) (secondsToCache : Z)
    (this : Controller) : Controller :=
  let this := if 0 <? secondsToCache then CacheOutput secondsToCache this
              else this in
  let this := set_Data (json_obj obj) this in
  ServeJson this.

(** ServeJsonModel marshals the specified object as JSON. *)
Definition ServeJsonModel (obj : Obj) (this : Controller) : Controller :=
  ServeJsonWithCache obj 0 this.

End Payload.

Arguments json_obj {Obj} obj.
Arguments json_blank_model {Obj}.
Arguments json_blank_model_list {Obj}.
Arguments Ctx_Status {Obj} _.
Arguments Ctx_Headers {Obj} _.
Arguments Data {Obj} _.
Arguments Responses {Obj} _.
Arguments written_status {Obj} _.
Arguments written_headers {Obj} _.
Arguments written_body {Obj} _.
Arguments mkWritten {Obj} _ _ _.
Arguments mkController {Obj} _ _ _ _.
Arguments CacheOutput {Obj} seconds this.
Arguments ServeBlankModel {Obj} this.
Arguments ServeBlankModelList {Obj} this.
Arguments ServeJsonWithCache {Obj} obj secondsToCache this.
Arguments ServeJsonModel {Obj} obj this.

Definition blank : Controller string :=
  {| Ctx_Status := 200; Ctx_Headers := []; Data := None; Responses := [] |}.

End web_cache.

(* ===================================================================== *)
(** * Package [localize] *)
(* ===================================================================== *)

Module localize.

(** [path.Ext]: scanning the name from its end, the suffix that starts at
    the first dot met, or the empty string when a slash or the start of the
    name is met first. [Ext_scan] is [None] when the scan runs through the
    whole argument without meeting a dot or a slash. *)
Fixpoint Ext_scan (path : string) : option string :=
  match path with
  | EmptyString => None
  | String c rest =>
      match Ext_scan rest with
      | Some ext => Some ext
      | None =>
          if Ascii.eqb c "."%char then Some (String c rest)
          else if Ascii.eqb c "/"%char then Some EmptyString
          else None
      end
  end.

Definition Ext (path : string) : string :=
  match Ext_scan path with
  | Some ext => ext
  | None => EmptyString
  end.

(** [fmt.Sprintf("%s/%s", directory, name)]. *)
Definition join_path (directory name : string) : string :=
  directory +:+ "/" +:+ name.

(** A snapshot of a file-system tree as [ioutil.ReadDir] shows it, one
    [FileInfo] per directory entry. A regular file carries whether
    [i18n.MustLoadTranslationFile] accepts it; a directory carries what
    reading it yields: [None] when [ioutil.ReadDir] fails on it, its entries
    otherwise. Entries are what [Lstat] reports, so a symbolic link is not a
    directory and the tree is finite. *)
#[local] Unset Elimination Schemes.
Inductive FileInfo : Type :=
| File (name : string) (loads : bool)
| Directory (name : string) (listing : option (list FileInfo)).
#[local] Set Elimination Schemes.

Definition FileInfo_Name (fileInfo : FileInfo) : string :=
  match fileInfo with
  | File name _ => name
  | Directory name _ => name
  end.

(** Whether [i18n.MustLoadTranslationFile] returns on that entry; on a
    directory the file read fails and it panics. *)
Definition loads_ok (fileInfo : FileInfo) : bool :=
  match fileInfo with
  | File _ loads => loads
  | Directory _ _ => false
  end.

(** What the process is started with: the [GOPATH] variable, the result of
    [os.Getwd], and what [ioutil.ReadDir] yields on a path given as a search
    root. *)
Record OS (GoError : Type) : Type := mkOS {
  GOPATH : string;
  Getwd : string + GoError;
  ReadDir : string -> option (list FileInfo)
}.
Arguments GOPATH {GoError} _.
Arguments Getwd {GoError} _.
Arguments ReadDir {GoError} _ _.

(** The packages the loader calls into: [encoding/json], go-i18n's
    [translation], [locale] and [i18n]. [GoError] is the type of non-nil
    errors; [locale_valid] tells whether [locale.MustNew] returns (it panics
    otherwise); [Tfunc_err] is the error result of [i18n.Tfunc]. *)
Class I18n : Type := mkI18n {
  GoError : Type;
  TranDocument : Type;
  Translation : Type;
  json_Unmarshal : string -> list TranDocument + GoError;
  NewTranslation : TranDocument -> Translation + GoError;
  locale_valid : string -> bool;
  Tfunc_err : string -> string -> option GoError
}.

Section Loader.

Context `{I18n}.

(** The calls that leave the package, in the order they are made. *)
Inductive Event : Type :=
| EvReadDir (directory : string)
| EvLogError (function : string)
| EvLoadFile (fileName : string) (ok : bool)
| EvAddTranslation (locale : string) (tran : Translation)
| EvTfunc (userLocale defaultLocale : string).

(** A computation of the loader: the events it produced and how it ended. *)
Definition Eff (A : Type) : Type := (list Event * outcome A)%type.

Definition ret {A : Type} (a : A) : Eff A := ([], Returns a).

Definition bind {A B : Type} (m : Eff A) (f : A -> Eff B) : Eff B :=
  match m with
  | (evs, Returns a) => let '(evs', r) := f a in (evs ++ evs', r)
  | (evs, Panics) => (evs, Panics)
  end.

Definition emit (ev : Event) : Eff unit := ([ev], Returns tt).

Definition panic {A : Type} : Eff A := ([], Panics).

Notation "x <- m ;; k" := (bind m (fun x => k))
  (at level 100, m at next level, right associativity).
Notation "m ;;; k" := (bind m (fun _ => k))
  (at level 100, right associativity).

(** A [for ... range] loop whose body neither breaks nor returns. *)
Fixpoint for_each {A : Type} (body : A -> Eff unit) (l : list A) : Eff unit :=
  match l with
  | [] => ret tt
  | x :: rest => body x ;;; for_each body rest
  end.

(** [i18n.MustLoadTranslationFile(fileName)] on a directory entry. *)
Definition MustLoadTranslationFile (fileName : string) (fileInfo : FileInfo)
  : Eff unit :=
  if loads_ok fileInfo
  then emit (EvLoadFile fileName true)
  else (emit (EvLoadFile fileName false) ;;; panic).

(** The body of the loop of [loadTranslationFiles]. *)
Definition loadTranslationFile (directory : string) (fileInfo : FileInfo)
  : Eff unit :=
  if negb (String.eqb (Ext (FileInfo_Name fileInfo)) ".json") then ret tt
  else
    let fileName := join_path directory (FileInfo_Name fileInfo) in
    MustLoadTranslationFile fileName fileInfo.

(** loadTranslationFiles loads the found translation files into the i18n
    messaging system for use by the application. [listing] is what
    [ioutil.ReadDir(directory)] yields. *)
Definition loadTranslationFiles (directory : string)
    (listing : option (list FileInfo)) : Eff unit :=
  emit (EvReadDir directory) ;;;
  match listing with
  | None => emit (EvLogError "loadTranslationFiles")
  | Some fileInfos => for_each (loadTranslationFile directory) fileInfos
  end.

(** The body of the loop of [searchDirectory]; the recursive call on a
    sub-directory appears unfolded, as the read of that directory followed
    by the loop over its entries. *)
Fixpoint searchEntry (directory pwd : string) (fileInfo : FileInfo)
  : Eff unit :=
  match fileInfo with
  | File _ _ => ret tt
  | Directory name listing =>
      let fullPath := join_path directory name in
      if String.eqb fullPath pwd then ret tt
      else if String.eqb name "i18n" then loadTranslationFiles fullPath listing
      else
        emit (EvReadDir fullPath) ;;;
        match listing with
        | None => emit (EvLogError "searchDirectory")
        | Some fileInfos => for_each (searchEntry fullPath pwd) fileInfos
        end
  end.

(** searchDirectory recurses through the specified directory looking for
    i18n folders. If found it will load the translations files. [listing] is
    what [ioutil.ReadDir(directory)] yields. *)
Definition searchDirectory (directory pwd : string)
    (listing : option (list FileInfo)) : Eff unit :=
  emit (EvReadDir directory) ;;;
  match listing with
  | None => emit (EvLogError "searchDirectory")
  | Some fileInfos => for_each (searchEntry directory pwd) fileInfos
  end.

(** The loop of [LoadJSON]; [Some err] is the early [return err]. *)
Fixpoint LoadJSON_loop (userLocale : string) (tranDocuments : list TranDocument)
  : Eff (option GoError) :=
  match tranDocuments with
  | [] => ret None
  | tranDocument :: rest =>
      match NewTranslation tranDocument with
      | inr err => emit (EvLogError "LoadJSON") ;;; ret (Some err)
      | inl tran =>
          if locale_valid userLocale
          then emit (EvAddTranslation userLocale tran) ;;;
               LoadJSON_loop userLocale rest
          else panic
      end
  end.

(** LoadJSON takes a json document of translations and manually loads them
    into the system. The result is the returned error, [None] for nil. *)
Definition LoadJSON (userLocale translationDocument : string)
  : Eff (option GoError) :=
  match json_Unmarshal translationDocument with
  | inr err => emit (EvLogError "LoadJSON") ;;; ret (Some err)
  | inl tranDocuments =>
      r <- LoadJSON_loop userLocale tranDocuments ;;
      match r with
      | Some err => ret (Some err)
      | None =>
          emit (EvTfunc userLocale userLocale) ;;;
          ret (Tfunc_err userLocale userLocale)
      end
  end.

(** LoadFiles looks for i18n folders inside the current directory and the
    GOPATH to find translation files to load. *)
Definition LoadFiles (os : OS GoError) (userLocale defaultLocal : string)
  : Eff (option GoError) :=
  let gopath := GOPATH os in
  match Getwd os with
  | inr err => emit (EvLogError "LoadFiles") ;;; ret (Some err)
  | inl pwd =>
      searchDirectory pwd pwd (ReadDir os pwd) ;;;
      (if negb (String.eqb gopath "")
       then searchDirectory gopath pwd (ReadDir os gopath)
       else ret tt) ;;;
      emit (EvTfunc userLocale defaultLocal) ;;;
      ret (Tfunc_err userLocale defaultLocal)
  end.

(** How often [ioutil.ReadDir] was called on a directory, and which files
    were handed to the translation store. *)
Definition is_ReadDir (directory : string) (ev : Event) : bool :=
  match ev with
  | EvReadDir d => String.eqb d directory
  | _ => false
  end.

Definition times_read (directory : string) (evs : list Event) : nat :=
  length (List.filter (is_ReadDir directory) evs).

Fixpoint loaded_files (evs : list Event) : list string :=
  match evs with
  | [] => []
  | EvLoadFile fileName true :: rest => fileName :: loaded_files rest
  | _ :: rest => loaded_files rest
  end.

Fixpoint added_translations (evs : list Event) : list (string * Translation) :=
  match evs with
  | [] => []
  | EvAddTranslation locale tran :: rest =>
      (locale, tran) :: added_translations rest
  | _ :: rest => added_translations rest
  end.

Fixpoint failed_loads (evs : list Event) : list string :=
  match evs with
  | [] => []
  | EvLoadFile fileName false :: rest => fileName :: failed_loads rest
  | _ :: rest => failed_loads rest
  end.

(** A computation that panics exactly when a translation file failed to
    load. *)
Definition panics_iff_failed_load {A : Type} (m : Eff A) : Prop :=
  match m.2 with
  | Returns _ => failed_loads m.1 = []
  | Panics => failed_loads m.1 <> []
  end.

(** Whether an entry of a resource folder is taken for a resource file. *)
Definition is_resource (fileInfo : FileInfo) : bool :=
  String.eqb (Ext (FileInfo_Name fileInfo)) ".json".

(** The events [loadTranslationFiles] produces for the entries of one
    folder when none of them fails to load. *)
Definition load_events (directory : string) (fileInfos : list FileInfo)
  : list Event :=
  map (fun fileInfo =>
         EvLoadFile (join_path directory (FileInfo_Name fileInfo)) true)
      (List.filter is_resource fileInfos).

(** An event of [loadTranslationFiles] past the directory read: the error
    log, or the load of an immediate entry of the folder whose extension is
    [.json]. *)
Definition immediate_load (directory : string)
    (listing : option (list FileInfo)) (ev : Event) : Prop :=
  ev = EvLogError "loadTranslationFiles" \/
  exists fileInfos fileInfo ok,
    listing = Some fileInfos /\ fileInfo ∈ fileInfos /\
    is_resource fileInfo = true /\
    ev = EvLoadFile (join_path directory (FileInfo_Name fileInfo)) ok.

(** [LoadFiles] after a successful [os.Getwd]: the two searches, then the
    binding of the lookup function. *)
Definition searches (os : OS GoError) (pwd : string) : Eff unit :=
  bind (searchDirectory pwd pwd (ReadDir os pwd))
       (fun _ => if negb (String.eqb (GOPATH os) "")
                 then searchDirectory (GOPATH os) pwd (ReadDir os (GOPATH os))
                 else ret tt).

End Loader.

(** Induction over a file-system tree: a directory is handled knowing the
    property of each of its entries. *)
Section FileInfo_induction.

Variable P : FileInfo -> Prop.
Hypothesis P_File : forall name loads, P (File name loads).
Hypothesis P_unreadable : forall name, P (Directory name None).
Hypothesis P_Directory : forall name fileInfos,
  Forall P fileInfos -> P (Directory name (Some fileInfos)).

Fixpoint FileInfo_ind (fileInfo : FileInfo) : P fileInfo :=
  match fileInfo with
  | File name loads => P_File name loads
  | Directory name None => P_unreadable name
  | Directory name (Some fileInfos) =>
      P_Directory name fileInfos
        ((fix all (l : list FileInfo) : Forall P l :=
            match l with
            | [] => @List.Forall_nil _ P
            | x :: rest => @List.Forall_cons _ P x rest (FileInfo_ind x) (all rest)
            end) fileInfos)
  end.

End FileInfo_induction.

(** ** Concrete inputs *)

(** A stand-in for the packages behind [I18n], used where a closed example
    needs some: the empty document does not parse; the document "ok" holds
    two good records; any other document holds three records, the second of
    them without an id; the empty locale is not a locale. *)
Definition sample_i18n : I18n :=
  {| GoError := string;
     TranDocument := string;
     Translation := string;
     json_Unmarshal := fun doc =>
       if String.eqb doc "" then inr "unexpected end of JSON input"
       else if String.eqb doc "ok" then inl ["hello"; "bye"]
       else inl ["hello"; ""; "bye"];
     NewTranslation := fun tranDocument =>
       if String.eqb tranDocument "" then inr "missing id"
       else inl tranDocument;
     locale_valid := fun locale => negb (String.eqb locale "");
     Tfunc_err := fun userLocale _ =>
       if String.eqb userLocale "" then Some "invalid locale" else None |}.

(** The translation file [en.json] alone in a resource folder. *)
Definition i18n_folder : FileInfo :=
  Directory "i18n" (Some [File "en.json" true]).

(** Working directory [/w] holding one resource folder, with [GOPATH] set
    to the same [/w]. *)
Definition os_same_roots {E : Type} : OS E :=
  {| GOPATH := "/w";
     Getwd := inl "/w";
     ReadDir := fun directory =>
       if String.eqb directory "/w" then Some [i18n_folder] else None |}.

(** The tree of the traversal example: [root/i18n] holds [fr.json], a text
    file and a sub-directory that holds [x.json]; [root/x/i18n] holds
    [en.json]; [root/locked] cannot be read. *)
Definition example_root : list FileInfo :=
  [ Directory "i18n"
      (Some [ File "fr.json" true;
              File "notes.txt" true;
              Directory "sub" (Some [File "x.json" true]) ]);
    Directory "locked" None;
    Directory "x" (Some [i18n_folder]) ].

(** A resource folder whose second file does not parse. *)
Definition broken_folder : list FileInfo :=
  [ File "de.json" true; File "en.json" false; File "fr.json" true ].

(** The directory [w] below [/g], being the working directory [/g/w]. *)
Definition working_directory_entry : FileInfo :=
  Directory "w" (Some [i18n_folder]).

(** The process started inside a resource folder: the working directory is
    [/g/i18n], which holds [en.json], and [GOPATH] is [/g]. *)
Definition os_in_resource_folder {E : Type} : OS E :=
  {| GOPATH := "/g";
     Getwd := inl "/g/i18n";
     ReadDir := fun directory =>
       if String.eqb directory "/g/i18n" then Some [File "en.json" true]
       else if String.eqb directory "/g" then Some [i18n_folder]
       else None |}.

(** ** The rest of the package, and notions for its properties *)

Section LoaderMore.

Context `{I18n}.

(** Init initializes the local environment. Its [switch] has the [default]
    case only; [En_US] is the built-in translation document of package
    [i18n] of this repository, which is not part of the source at hand. The
    result of [LoadJSON] is dropped. *)
Definition Init (En_US : string) (userLocale : string) : Eff unit :=
  bind (LoadJSON userLocale En_US) (fun _ => ret tt).

(** The directories [ioutil.ReadDir] was called on, in order. *)
Fixpoint reads (evs : list Event) : list string :=
  match evs with
  | [] => []
  | EvReadDir directory :: rest => directory :: reads rest
  | _ :: rest => reads rest
  end.

(** Whether [i18n.Tfunc] was called, that is whether [T] was assigned. *)
Fixpoint binds_lookup (evs : list Event) : bool :=
  match evs with
  | [] => false
  | EvTfunc _ _ :: _ => true
  | _ :: rest => binds_lookup rest
  end.

End LoaderMore.

(** A name as a directory holds it: no slash inside. *)
Fixpoint no_slash (name : string) : bool :=
  match name with
  | EmptyString => true
  | String c rest => negb (Ascii.eqb c "/"%char) && no_slash rest
  end.

(** A tree as a file system holds it: no slash in a name, no two entries of
    one directory with the same name. *)
Fixpoint well_formed (fileInfo : FileInfo) : Prop :=
  match fileInfo with
  | File name _ => no_slash name = true
  | Directory name None => no_slash name = true
  | Directory name (Some fileInfos) =>
      no_slash name = true /\
      NoDup (FileInfo_Name <$> fileInfos) /\
      foldr (fun entry rest => well_formed entry /\ rest) True fileInfos
  end.

Definition well_formed_listing (listing : option (list FileInfo)) : Prop :=
  match listing with
  | None => True
  | Some fileInfos =>
      NoDup (FileInfo_Name <$> fileInfos) /\ Forall well_formed fileInfos
  end.

(** [q] is the path [p] or a path below it. *)
Definition under (p q : string) : Prop :=
  q = p \/ exists rest, q = p +:+ "/" +:+ rest.

(** [s] ends with [suffix]. *)
Definition ends_with (suffix s : string) : Prop :=
  exists base, s = base +:+ suffix.

(** A path immediately inside a directory named [i18n], with a name that
    ends in [.json]. *)
Definition resource_path (fileName : string) : Prop :=
  exists directory name,
    fileName = join_path (join_path directory "i18n") name /\
    ends_with ".json" name.

(** A working directory with an unreadable sub-directory, two resource
    folders and no [GOPATH]. *)
Definition os_no_gopath {E : Type} : OS E :=
  {| GOPATH := "";
     Getwd := inl "root";
     ReadDir := fun directory =>
       if String.eqb directory "root" then Some example_root else None |}.

End localize.

(* ===================================================================== *)
(** * Properties of package [web] *)
(* ===================================================================== *)

Module web_props.
Import web.

Section Serving.

Context `{ErrorTaxonomy}.

Lemma is_nil_true (err : error) : is_nil err = true <-> err = nil_error.
Proof. by destruct err. Qed.

Lemma is_nil_false (err : error) : is_nil err = false <-> err <> nil_error.
Proof. by destruct err. Qed.

Lemma ServeMessagesWithStatus_emits status msgs this :
  emits this (ServeMessagesWithStatus status msgs this) status msgs.
Proof. reflexivity. Qed.

Lemma ServeMessageWithStatus_emits status msg this :
  emits this (ServeMessageWithStatus status msg this) status [msg].
Proof. reflexivity. Qed.

Lemma ServeMessagesWithStatus_Status status msgs this :
  Status (ServeMessagesWithStatus status msgs this) = status.
Proof. reflexivity. Qed.

Lemma ServeAppError_emits this :
  emits this (ServeAppError this) APP_ERROR_CODE [APP_ERROR_MSG].
Proof. apply ServeMessageWithStatus_emits. Qed.

(** Two responses appended to the same output are the same response. *)
Lemma emits_inj this this' status1 msgs1 status2 msgs2 :
  emits this this' status1 msgs1 -> emits this this' status2 msgs2 ->
  status1 = status2 /\ msgs1 = msgs2.
Proof.
  unfold emits. intros E1 E2. rewrite E1 in E2.
  apply app_inv_head in E2. by inversion E2.
Qed.

(** C1. For every error value that is not an AppError (rendering as [text]),
    ServeErrorResponse returns having written exactly one response, with
    status APP_ERROR_CODE and the error's own text as the only message;
    ServeAppError writes the fixed generic message whatever the error was. *)
Theorem ServeErrorResponse_other_error_keeps_text (text : string)
    (this : BaseController) :
  (exists this',
      ServeErrorResponse (other_error text) this = Returns this' /\
      Status this' = APP_ERROR_CODE /\
      emits this this' APP_ERROR_CODE [text]) /\
  emits this (ServeAppError this) APP_ERROR_CODE [APP_ERROR_MSG].
Proof.
  split; [| apply ServeAppError_emits].
  exists (ServeMessageWithStatus APP_ERROR_CODE text this).
  split; [reflexivity |]. split; [reflexivity |].
  apply ServeMessageWithStatus_emits.
Qed.

(** C5. For every AppError with code C and message M, both error serializers
    write exactly one response whose document is {Messages:[M]} and whose
    status is C when C is nonzero and APP_ERROR_CODE when C is 0. *)
Theorem serve_AppError_status_and_message (e : AppError)
    (this : BaseController) :
  let status := if decide (ErrorCode e = 0) then APP_ERROR_CODE else ErrorCode e in
  (exists this',
      ServeErrorResponse (app_error e) this = Returns this' /\
      Status this' = status /\
      emits this this' status [Error e]) /\
  Status (ServeError (app_error e) this) = status /\
  emits this (ServeError (app_error e) this) status [Error e].
Proof.
  cbn zeta. unfold ServeErrorResponse, ServeError.
  destruct (decide (ErrorCode e = 0)) as [E | E].
  - rewrite E. cbn [Z.eqb negb].
    split; [eexists; split; [reflexivity |] |]; split;
      first [reflexivity | apply ServeMessageWithStatus_emits].
  - apply Z.eqb_neq in E. rewrite E. cbn [negb].
    split; [eexists; split; [reflexivity |] |]; split;
      first [reflexivity | apply ServeMessageWithStatus_emits].
Qed.

(** C10. For every error value that is not an AppError, ServeError does
    exactly what ServeAppError does: one response, status APP_ERROR_CODE, the
    single message APP_ERROR_MSG; the error's own text is discarded, so
    ServeError writes that text only when it happens to be the generic
    message, while ServeErrorResponse writes it always. *)
Theorem ServeError_other_error_is_generic (err : error)
    (this : BaseController) :
  is_AppError err = false ->
  ServeError err this = ServeAppError this /\
  emits this (ServeError err this) APP_ERROR_CODE [APP_ERROR_MSG] /\
  forall text, err = other_error text ->
    (emits this (ServeError err this) APP_ERROR_CODE [text] <->
     text = APP_ERROR_MSG) /\
    exists this',
      ServeErrorResponse err this = Returns this' /\
      emits this this' APP_ERROR_CODE [text].
Proof.
  intros Hno.
  assert (Heq : ServeError err this = ServeAppError this)
    by (destruct err; [reflexivity | discriminate | reflexivity]).
  split; [exact Heq |]. rewrite Heq.
  split; [apply ServeAppError_emits |].
  intros text ->. split.
  - split.
    + intros Hem.
      destruct (emits_inj _ _ _ _ _ _ Hem (ServeAppError_emits this)) as [_ E].
      by inversion E.
    + intros ->. apply ServeAppError_emits.
  - eexists. split; [reflexivity |]. apply ServeMessageWithStatus_emits.
Qed.

(** C9. When a fault is being unwound, CatchPanic writes exactly one
    response, with status APP_ERROR_CODE and the fixed generic message, and
    the caller's error variable holds a non-nil error afterwards; when there
    is no fault it writes nothing and leaves that variable as it was. *)
Theorem CatchPanic_fault_serves_generic_once (err : error)
    (this : BaseController) :
  (forall r : string,
      exists err' this',
        CatchPanic (Some r) err this = (err', this') /\
        err' <> nil_error /\
        emits this this' APP_ERROR_CODE [APP_ERROR_MSG] /\
        length (Output this') = S (length (Output this))) /\
  CatchPanic None err this = (err, this).
Proof.
  split; [| reflexivity].
  intros r. exists (other_error r), (ServeAppError this).
  split; [reflexivity |]. split; [discriminate |].
  split; [apply ServeAppError_emits |].
  rewrite (ServeAppError_emits this), length_app. cbn. lia.
Qed.

Section Validation.

Variable Params : Type.
Variable ParseForm : BaseController -> Params -> Params * error.
Variable Fields : Params -> list StructField.

(** C8. If binding the input fails, or the validator itself fails, then
    ParseAndValidate returns false having written exactly one response, with
    status VALIDATION_ERROR_CODE and the fixed generic validation message,
    the same response in both cases; and after a binding failure the result
    does not depend on the validator or on the declared fields at all. *)
Theorem ParseAndValidate_short_circuit (Valid : Params -> ValidResult)
    (params : Params) (this : BaseController) :
  short_circuits Params ParseForm Valid params this ->
  ParseAndValidate Params ParseForm Valid Fields params this
  = (false, ServeMessageWithStatus VALIDATION_ERROR_CODE VALIDATION_ERROR_MSG this) /\
  emits this
    (ParseAndValidate Params ParseForm Valid Fields params this).2
    VALIDATION_ERROR_CODE [VALIDATION_ERROR_MSG] /\
  ((ParseForm this params).2 <> nil_error ->
     forall Valid' Fields',
       ParseAndValidate Params ParseForm Valid' Fields' params this
       = ParseAndValidate Params ParseForm Valid Fields params this).
Proof.
  unfold short_circuits, ParseAndValidate. intros Hfail.
  destruct (ParseForm this params) as [bound err]. cbn [fst snd] in *.
  destruct (is_nil err) eqn:Hbind; cbn [negb].
  - apply is_nil_true in Hbind as ->.
    destruct Hfail as [Hfail | Hfail]; [done |].
    apply is_nil_false in Hfail. rewrite Hfail. cbn [negb].
    split; [reflexivity |]. split; [apply ServeMessageWithStatus_emits |].
    done.
  - split; [reflexivity |]. split; [apply ServeMessageWithStatus_emits |].
    reflexivity.
Qed.

End Validation.

End Serving.

Section Messages.

Implicit Types (fields : list StructField) (typeField : StructField).
Implicit Types (err : ValidationError).

Lemma build_messages2_snoc fields typeField :
  build_messages2 (fields ++ [typeField])
  = <[ Name typeField := Tag_Get (Tag typeField) "error" ]>
      (build_messages2 fields).
Proof. unfold build_messages2. by rewrite fold_left_app. Qed.

(** The map has an entry exactly for the declared field names. *)
Lemma build_messages2_lookup_None fields (name : string) :
  build_messages2 fields !! name = None <-> name ∉ Name <$> fields.
Proof.
  induction fields as [| typeField fields IH] using rev_ind.
  - cbn. split; [intros _; apply not_elem_of_nil | done].
  - rewrite build_messages2_snoc, fmap_app, not_elem_of_app. cbn.
    rewrite lookup_insert_None, IH, not_elem_of_cons.
    split; [intros [? ?] | intros [? [? _]]]; repeat split; try done.
    apply not_elem_of_nil.
Qed.

(** With distinct field names, the entry of a declared field is the value of
    its [error] tag, empty or not. *)
Lemma build_messages2_lookup_declared fields typeField :
  NoDup (Name <$> fields) -> typeField ∈ fields ->
  build_messages2 fields !! Name typeField
  = Some (Tag_Get (Tag typeField) "error").
Proof.
  induction fields as [| last fields IH] using rev_ind; intros Hnd Hin.
  - by apply elem_of_nil in Hin.
  - rewrite build_messages2_snoc.
    rewrite fmap_app in Hnd. apply NoDup_app in Hnd as (Hnd & Hfresh & _).
    apply elem_of_app in Hin as [Hin | Hin].
    + rewrite lookup_insert_ne; [by apply IH |].
      intros Heq. apply (Hfresh (Name typeField)).
      * apply list_elem_of_fmap. by exists typeField.
      * rewrite <- Heq. cbn. apply list_elem_of_here.
    + apply list_elem_of_singleton in Hin as ->. apply lookup_insert_eq.
Qed.

(** The map does not remember the order of declaration. *)
Lemma build_messages2_Permutation fields fields' :
  NoDup (Name <$> fields) -> fields ≡ₚ fields' ->
  build_messages2 fields = build_messages2 fields'.
Proof.
  intros Hnd Hperm. apply map_eq. intros name.
  assert (Hnd' : NoDup (Name <$> fields')) by (by rewrite <- Hperm).
  destruct (decide (name ∈ Name <$> fields)) as [Hin | Hout].
  - apply list_elem_of_fmap in Hin as (typeField & -> & Hin).
    rewrite (build_messages2_lookup_declared fields) by done.
    rewrite (build_messages2_lookup_declared fields'); [done .. |].
    by rewrite <- Hperm.
  - assert (Hout' : name ∉ Name <$> fields') by (by rewrite <- Hperm).
    apply build_messages2_lookup_None in Hout, Hout'. congruence.
Qed.

Lemma build_errors_from (messages2 : gmap string string) (validErrors : list ValidationError)
    (errors : list string) :
  fold_left (fun errors err =>
               match messages2 !! Field err with
               | Some message => errors ++ [message]
               | None => errors ++ [Message err]
               end) validErrors errors
  = errors ++ map (message_of messages2) validErrors.
Proof.
  revert errors. induction validErrors as [| err rest IH]; intros errors; cbn.
  - by rewrite app_nil_r.
  - rewrite IH. unfold message_of at 2.
    destruct (messages2 !! Field err); by rewrite <- app_assoc.
Qed.

(** One message per reported failure, in the order of the report. *)
Lemma build_errors_map (messages2 : gmap string string) (validErrors : list ValidationError) :
  build_errors messages2 validErrors = map (message_of messages2) validErrors.
Proof. unfold build_errors. by rewrite build_errors_from. Qed.

(** With distinct field names, the message of a failure on a declared field
    is the value of the field's [error] tag, be it empty or not. *)
Lemma message_of_override fields typeField err :
  NoDup (Name <$> fields) -> typeField ∈ fields ->
  Field err = Name typeField ->
  message_of (build_messages2 fields) err = Tag_Get (Tag typeField) "error".
Proof.
  intros Hnd Hin Hfield. unfold message_of.
  by rewrite Hfield, (build_messages2_lookup_declared fields).
Qed.

(** The validator's own message is used only for a failure on a name that
    is not a declared field. *)
Lemma message_of_undeclared fields err :
  Field err ∉ Name <$> fields ->
  message_of (build_messages2 fields) err = Message err.
Proof.
  intros Hout. apply build_messages2_lookup_None in Hout.
  unfold message_of. by rewrite Hout.
Qed.

End Messages.

Section InvalidResult.

Context `{ErrorTaxonomy}.
Variable Params : Type.
Variable ParseForm : BaseController -> Params -> Params * error.
Variable Valid : Params -> ValidResult.
Variable Fields : Params -> list StructField.

(** C3, as amended. When the validator reports the bound structure invalid,
    ParseAndValidate returns false having written exactly one response, with
    status VALIDATION_ERROR_CODE, whose messages follow the validator's
    report: there is one message per reported failure and the i-th message is
    the one for the i-th failure. The override map itself carries no order:
    for distinct field names any reordering of the declarations builds the
    same map. *)
Theorem ParseAndValidate_messages_in_report_order (params bound : Params)
    (this : BaseController) :
  ParseForm this params = (bound, nil_error) ->
  valid_err (Valid bound) = nil_error ->
  valid_ok (Valid bound) = false ->
  let messages2 := build_messages2 (Fields bound) in
  exists this' (msgs : list string),
    ParseAndValidate Params ParseForm Valid Fields params this = (false, this') /\
    emits this this' VALIDATION_ERROR_CODE msgs /\
    length msgs = length (Errors (Valid bound)) /\
    (forall (i : nat) err, Errors (Valid bound) !! i = Some err ->
       msgs !! i = Some (message_of messages2 err)) /\
    (forall fields', NoDup (Name <$> Fields bound) ->
       Fields bound ≡ₚ fields' -> build_messages2 fields' = messages2).
Proof.
  intros Hbind Herr Hok messages2.
  exists (ServeMessagesWithStatus VALIDATION_ERROR_CODE
            (build_errors messages2 (Errors (Valid bound))) this),
         (build_errors messages2 (Errors (Valid bound))).
  split; [| split; [| split; [| split]]].
  - unfold ParseAndValidate. rewrite Hbind, Herr, Hok. reflexivity.
  - apply ServeMessagesWithStatus_emits.
  - rewrite build_errors_map. apply length_map.
  - intros i err Hi. rewrite build_errors_map.
    change (map (message_of messages2) (Errors (Valid bound)))
      with (message_of messages2 <$> Errors (Valid bound)).
    by rewrite list_lookup_fmap, Hi.
  - intros fields' Hnd Hperm. symmetry.
    by apply build_messages2_Permutation.
Qed.

End InvalidResult.

(** C2, the code at the input of the claim. For the fields
    [A(override="custom A"), B(override="")] and failures reported on A and
    B with the messages "m_a" and "m_b", ParseAndValidate writes the messages
    ["custom A"; ""]: the empty override of B is emitted as it is, where the
    claim has the validator's message "m_b". *)
Theorem ParseAndValidate_empty_override_is_emitted `{ErrorTaxonomy} :
  emits blank_controller
    (ParseAndValidate unit passing_binder (reports [failure_A; failure_B])
       (fun _ => [field_A; field_B]) tt blank_controller).2
    VALIDATION_ERROR_CODE ["custom A"; ""] /\
  message_of (build_messages2 [field_A; field_B]) failure_B <> Message failure_B.
Proof. split; [reflexivity | discriminate]. Qed.

#[local] Existing Instance sample_taxonomy.

Lemma ServeError_other_error_is_generic_witness :
  is_AppError (other_error "disk full") = false /\
  ServeError (other_error "disk full") blank_controller
  = ServeAppError blank_controller.
Proof.
  split; [reflexivity |].
  apply (ServeError_other_error_is_generic (other_error "disk full")
           blank_controller).
  reflexivity.
Defined.

Lemma ParseAndValidate_short_circuit_witness :
  short_circuits unit passing_binder failing_validator tt blank_controller /\
  ParseAndValidate unit passing_binder failing_validator (fun _ => []) tt
    blank_controller
  = ParseAndValidate unit failing_binder failing_validator (fun _ => []) tt
      blank_controller.
Proof.
  assert (Hvalidator : short_circuits unit passing_binder failing_validator tt
                         blank_controller) by (right; discriminate).
  assert (Hbinder : short_circuits unit failing_binder failing_validator tt
                      blank_controller) by (left; discriminate).
  split; [exact Hvalidator |].
  destruct (ParseAndValidate_short_circuit unit passing_binder (fun _ => [])
              failing_validator tt blank_controller Hvalidator) as [-> _].
  destruct (ParseAndValidate_short_circuit unit failing_binder (fun _ => [])
              failing_validator tt blank_controller Hbinder) as [-> _].
  reflexivity.
Defined.

Lemma ParseAndValidate_messages_in_report_order_witness :
  exists this' msgs,
    ParseAndValidate unit passing_binder (reports [failure_B; failure_A])
      (fun _ => [field_A; field_B']) tt blank_controller = (false, this') /\
    emits blank_controller this' VALIDATION_ERROR_CODE msgs /\
    length msgs = 2%nat.
Proof.
  destruct (ParseAndValidate_messages_in_report_order unit passing_binder
              (reports [failure_B; failure_A]) (fun _ => [field_A; field_B'])
              tt tt blank_controller eq_refl eq_refl eq_refl)
    as (this' & msgs & Hrun & Hemits & Hlen & _).
  exists this', msgs. split; [exact Hrun |]. split; [exact Hemits | exact Hlen].
Defined.

(** C3, as stated, fails: for the fields [A; B] declared in that order and
    failures reported on B and then on A, the response carries the message
    for B before the message for A, which is not the list in declaration
    order. *)
Lemma ParseAndValidate_not_in_declaration_order :
  ~ emits blank_controller
      (ParseAndValidate unit passing_binder (reports [failure_B; failure_A])
         (fun _ => [field_A; field_B']) tt blank_controller).2
      VALIDATION_ERROR_CODE
      (declaration_order_errors [field_A; field_B'] [failure_B; failure_A]).
Proof.
  intros Hdecl.
  pose proof (ServeMessagesWithStatus_emits VALIDATION_ERROR_CODE
                ["custom B"; "custom A"] blank_controller) as Hcode.
  destruct (emits_inj _ _ _ _ _ _ Hdecl Hcode) as [_ Hmsgs].
  vm_compute in Hmsgs. discriminate Hmsgs.
Qed.

End web_props.

(* ===================================================================== *)
(** * Properties of package [localize] *)
(* ===================================================================== *)

Module localize_props.
Import localize.

Section Traversal.

Context `{I18n}.

(** ** Sequencing *)

Lemma bind_Returns {A B : Type} (evs : list Event) (a : A) (f : A -> Eff B) :
  bind (evs, Returns a) f = (evs ++ (f a).1, (f a).2).
Proof. cbn. by destruct (f a). Qed.

Lemma bind_Panics {A B : Type} (evs : list Event) (f : A -> Eff B) :
  bind (evs, @Panics A) f = (evs, Panics).
Proof. reflexivity. Qed.

Lemma bind_emit {B : Type} (ev : Event) (k : Eff B) :
  bind (emit ev) (fun _ => k) = (ev :: k.1, k.2).
Proof. unfold emit. by rewrite bind_Returns. Qed.

Lemma failed_loads_app (evs1 evs2 : list Event) :
  failed_loads (evs1 ++ evs2) = failed_loads evs1 ++ failed_loads evs2.
Proof.
  induction evs1 as [| ev evs1 IH]; [reflexivity |].
  destruct ev as [| | ? [|] | |]; cbn; by rewrite ?IH.
Qed.

Lemma loaded_files_app (evs1 evs2 : list Event) :
  loaded_files (evs1 ++ evs2) = loaded_files evs1 ++ loaded_files evs2.
Proof.
  induction evs1 as [| ev evs1 IH]; [reflexivity |].
  destruct ev as [| | ? [|] | |]; cbn; by rewrite ?IH.
Qed.

Lemma added_translations_app (evs1 evs2 : list Event) :
  added_translations (evs1 ++ evs2)
  = added_translations evs1 ++ added_translations evs2.
Proof.
  induction evs1 as [| ev evs1 IH]; [reflexivity |].
  destruct ev; cbn; by rewrite ?IH.
Qed.

(** ** A panic is always a translation file that failed to load *)

Lemma panics_iff_failed_load_bind {A B : Type} (m : Eff A) (f : A -> Eff B) :
  panics_iff_failed_load m ->
  (forall a, panics_iff_failed_load (f a)) ->
  panics_iff_failed_load (bind m f).
Proof.
  destruct m as [evs [a |]]; unfold panics_iff_failed_load; cbn [fst snd].
  - intros Hm Hf. rewrite bind_Returns. cbn [fst snd].
    rewrite failed_loads_app, Hm. apply Hf.
  - intros Hm _. by rewrite bind_Panics.
Qed.

Lemma panics_iff_failed_load_for_each {A : Type} (body : A -> Eff unit)
    (l : list A) :
  Forall (fun x => panics_iff_failed_load (body x)) l ->
  panics_iff_failed_load (for_each body l).
Proof.
  induction 1 as [| x rest Hx _ IH]; [reflexivity |].
  cbn [for_each]. apply panics_iff_failed_load_bind; [exact Hx | intros _; exact IH].
Qed.

Lemma loadTranslationFile_panics_iff (directory : string) (fileInfo : FileInfo) :
  panics_iff_failed_load (loadTranslationFile directory fileInfo).
Proof.
  unfold loadTranslationFile, MustLoadTranslationFile.
  destruct (negb _); [reflexivity |].
  destruct (loads_ok fileInfo); [reflexivity |].
  unfold panics_iff_failed_load. cbn. discriminate.
Qed.

Lemma loadTranslationFiles_panics_iff (directory : string)
    (listing : option (list FileInfo)) :
  panics_iff_failed_load (loadTranslationFiles directory listing).
Proof.
  unfold loadTranslationFiles.
  apply panics_iff_failed_load_bind; [reflexivity | intros _].
  destruct listing as [fileInfos |]; [| reflexivity].
  apply panics_iff_failed_load_for_each, Forall_forall.
  intros fileInfo _. apply loadTranslationFile_panics_iff.
Qed.

Lemma searchEntry_panics_iff (fileInfo : FileInfo) :
  forall directory pwd,
    panics_iff_failed_load (searchEntry directory pwd fileInfo).
Proof.
  induction fileInfo as [name loads | name | name fileInfos IH]
    using FileInfo_ind; intros directory pwd; cbn [searchEntry].
  - reflexivity.
  - destruct (String.eqb _ pwd); [reflexivity |].
    destruct (String.eqb name "i18n");
      [apply loadTranslationFiles_panics_iff | reflexivity].
  - destruct (String.eqb _ pwd); [reflexivity |].
    destruct (String.eqb name "i18n");
      [apply loadTranslationFiles_panics_iff |].
    apply panics_iff_failed_load_bind; [reflexivity | intros _].
    apply panics_iff_failed_load_for_each.
    eapply Forall_impl; [exact IH |]. intros x Hx. apply Hx.
Qed.

Lemma searchDirectory_panics_iff (directory pwd : string)
    (listing : option (list FileInfo)) :
  panics_iff_failed_load (searchDirectory directory pwd listing).
Proof.
  unfold searchDirectory.
  apply panics_iff_failed_load_bind; [reflexivity | intros _].
  destruct listing as [fileInfos |]; [| reflexivity].
  apply panics_iff_failed_load_for_each, Forall_forall.
  intros fileInfo _. apply searchEntry_panics_iff.
Qed.

(** ** What a resource folder contributes *)

Lemma loadTranslationFile_events (directory : string) (fileInfo : FileInfo) :
  Forall (fun ev => exists ok,
            is_resource fileInfo = true /\
            ev = EvLoadFile (join_path directory (FileInfo_Name fileInfo)) ok)
         (loadTranslationFile directory fileInfo).1.
Proof.
  unfold loadTranslationFile, MustLoadTranslationFile.
  fold (is_resource fileInfo).
  destruct (is_resource fileInfo); cbn [negb]; [| constructor].
  destruct (loads_ok fileInfo); cbn; repeat constructor; eauto.
Qed.

Lemma for_each_loadTranslationFile_events (directory : string)
    (fileInfos : list FileInfo) :
  Forall (fun ev => exists fileInfo ok,
            fileInfo ∈ fileInfos /\ is_resource fileInfo = true /\
            ev = EvLoadFile (join_path directory (FileInfo_Name fileInfo)) ok)
         (for_each (loadTranslationFile directory) fileInfos).1.
Proof.
  induction fileInfos as [| fileInfo rest IH]; [constructor |].
  cbn [for_each].
  pose proof (loadTranslationFile_events directory fileInfo) as Hhead.
  destruct (loadTranslationFile directory fileInfo) as [evs [[] |]];
    cbn [fst] in Hhead.
  - rewrite bind_Returns. cbn [fst]. apply Forall_app. split.
    + eapply Forall_impl; [exact Hhead |].
      intros ev (ok & Hres & ->). exists fileInfo, ok.
      split; [apply list_elem_of_here | done].
    + eapply Forall_impl; [exact IH |].
      intros ev (fi & ok & Hin & Hres & ->). exists fi, ok.
      split; [by apply list_elem_of_further | done].
  - rewrite bind_Panics. cbn [fst].
    eapply Forall_impl; [exact Hhead |].
    intros ev (ok & Hres & ->). exists fileInfo, ok.
    split; [apply list_elem_of_here | done].
Qed.

(** A resource folder is read once and nothing below it is read: after the
    directory read, every event concerns an immediate [.json] entry. *)
Lemma loadTranslationFiles_events (directory : string)
    (listing : option (list FileInfo)) :
  exists evs,
    (loadTranslationFiles directory listing).1 = EvReadDir directory :: evs /\
    Forall (immediate_load directory listing) evs.
Proof.
  unfold loadTranslationFiles. rewrite bind_emit. cbn [fst].
  eexists. split; [reflexivity |].
  destruct listing as [fileInfos |].
  - eapply Forall_impl; [apply for_each_loadTranslationFile_events |].
    intros ev (fi & ok & Hin & Hres & ->). right. by exists fileInfos, fi, ok.
  - cbn. repeat constructor.
Qed.

(** When every resource file of the folder loads, all of them are loaded,
    in the order of the listing. *)
Lemma for_each_loadTranslationFile_ok (directory : string)
    (fileInfos : list FileInfo) :
  Forall (fun fileInfo => is_resource fileInfo = true ->
                          loads_ok fileInfo = true) fileInfos ->
  for_each (loadTranslationFile directory) fileInfos
  = (load_events directory fileInfos, Returns tt).
Proof.
  induction 1 as [| fileInfo rest Hok _ IH]; [reflexivity |].
  cbn [for_each]. rewrite IH. unfold load_events. cbn [List.filter].
  unfold loadTranslationFile, MustLoadTranslationFile.
  fold (is_resource fileInfo).
  destruct (is_resource fileInfo); cbn [negb]; [| reflexivity].
  rewrite Hok by reflexivity. reflexivity.
Qed.

(** The first resource file that fails to load stops the folder with a
    panic; the files before it stay loaded and none after it is tried. *)
Lemma for_each_loadTranslationFile_fails (directory : string)
    (pre post : list FileInfo) (fileInfo : FileInfo) :
  Forall (fun fileInfo => is_resource fileInfo = true ->
                          loads_ok fileInfo = true) pre ->
  is_resource fileInfo = true -> loads_ok fileInfo = false ->
  for_each (loadTranslationFile directory) (pre ++ fileInfo :: post)
  = (load_events directory pre ++
       [EvLoadFile (join_path directory (FileInfo_Name fileInfo)) false],
     Panics).
Proof.
  intros Hpre Hres Hfail.
  induction Hpre as [| first pre Hok _ IH].
  - cbn [app for_each]. unfold loadTranslationFile, MustLoadTranslationFile.
    fold (is_resource fileInfo). rewrite Hres, Hfail. reflexivity.
  - cbn [app for_each]. rewrite IH. unfold load_events. cbn [List.filter].
    unfold loadTranslationFile, MustLoadTranslationFile.
    fold (is_resource first).
    destruct (is_resource first); cbn [negb]; [| reflexivity].
    rewrite Hok by reflexivity. reflexivity.
Qed.

Lemma loaded_files_load_events (directory : string)
    (fileInfos : list FileInfo) :
  loaded_files (load_events directory fileInfos)
  = map (fun fileInfo => join_path directory (FileInfo_Name fileInfo))
        (List.filter is_resource fileInfos).
Proof.
  unfold load_events.
  induction (List.filter is_resource fileInfos) as [| fi l IH];
    [reflexivity | cbn; by rewrite IH].
Qed.

(** ** The two passes of [LoadFiles] *)

Lemma bind_assoc {A B C : Type} (m : Eff A) (f : A -> Eff B) (g : B -> Eff C) :
  bind (bind m f) g = bind m (fun a => bind (f a) g).
Proof.
  destruct m as [evs [a |]]; [| reflexivity].
  cbn. destruct (f a) as [evs' [b |]]; cbn; [| reflexivity].
  destruct (g b) as [evs'' r]. by rewrite app_assoc.
Qed.

Lemma LoadFiles_searches (os : OS GoError) (userLocale defaultLocal pwd : string) :
  Getwd os = inl pwd ->
  LoadFiles os userLocale defaultLocal
  = bind (searches os pwd)
         (fun _ => ([EvTfunc userLocale defaultLocal],
                    Returns (Tfunc_err userLocale defaultLocal))).
Proof.
  intros Hwd. unfold LoadFiles, searches. rewrite Hwd, bind_assoc.
  reflexivity.
Qed.

Lemma searches_panics_iff (os : OS GoError) (pwd : string) :
  panics_iff_failed_load (searches os pwd).
Proof.
  unfold searches. apply panics_iff_failed_load_bind.
  - apply searchDirectory_panics_iff.
  - intros _. destruct (negb _); [apply searchDirectory_panics_iff | reflexivity].
Qed.

(** Directory-read failures never decide how [LoadFiles] ends: it returns
    what [i18n.Tfunc] returns unless a translation file failed to load, and
    then it panics. *)
Lemma LoadFiles_outcome (os : OS GoError) (userLocale defaultLocal pwd : string) :
  Getwd os = inl pwd ->
  let run := LoadFiles os userLocale defaultLocal in
  (failed_loads run.1 = [] ->
     run.2 = Returns (Tfunc_err userLocale defaultLocal) /\
     exists evs, run.1 = evs ++ [EvTfunc userLocale defaultLocal]) /\
  (failed_loads run.1 <> [] -> run.2 = Panics).
Proof.
  intros Hwd run. subst run. rewrite (LoadFiles_searches _ _ _ _ Hwd).
  pose proof (searches_panics_iff os pwd) as Hs.
  destruct (searches os pwd) as [evs [[] |]];
    unfold panics_iff_failed_load in Hs; cbn [fst snd] in Hs.
  - rewrite bind_Returns. cbn [fst snd]. split.
    + intros _. split; [reflexivity | by exists evs].
    + rewrite failed_loads_app, Hs. cbn. congruence.
  - rewrite bind_Panics. cbn [fst snd]. split; [congruence | reflexivity].
Qed.

(** With [GOPATH] equal to the working directory the same traversal runs
    twice. *)
Lemma LoadFiles_same_roots_twice (os : OS GoError)
    (userLocale defaultLocal pwd : string) (evs : list Event) :
  Getwd os = inl pwd -> GOPATH os = pwd -> pwd <> "" ->
  searchDirectory pwd pwd (ReadDir os pwd) = (evs, Returns tt) ->
  LoadFiles os userLocale defaultLocal
  = (evs ++ evs ++ [EvTfunc userLocale defaultLocal],
     Returns (Tfunc_err userLocale defaultLocal)).
Proof.
  intros Hwd Hgo Hne Hrun. rewrite (LoadFiles_searches _ _ _ _ Hwd).
  unfold searches. rewrite Hgo.
  apply String.eqb_neq in Hne. rewrite Hne. cbn [negb].
  rewrite Hrun, !bind_Returns. cbn [fst snd].
  rewrite bind_Returns. cbn [fst snd]. by rewrite <- app_assoc.
Qed.

(** ** [LoadJSON] *)

Lemma LoadJSON_loop_fails (userLocale : string)
    (pre post : list TranDocument) (trans : list Translation)
    (tranDocument : TranDocument) (err : GoError) :
  Forall2 (fun d tran => NewTranslation d = inl tran) pre trans ->
  NewTranslation tranDocument = inr err ->
  (pre <> [] -> locale_valid userLocale = true) ->
  LoadJSON_loop userLocale (pre ++ tranDocument :: post)
  = (map (EvAddTranslation userLocale) trans ++ [EvLogError "LoadJSON"],
     Returns (Some err)).
Proof.
  intros Hpre Hfail Hloc.
  induction Hpre as [| d tran pre trans Hd _ IH].
  - cbn [app LoadJSON_loop]. rewrite Hfail. reflexivity.
  - cbn [app LoadJSON_loop]. rewrite Hd, Hloc by discriminate.
    rewrite IH by (intros _; apply Hloc; discriminate).
    reflexivity.
Qed.

Lemma LoadFiles_search_panics (os : OS GoError)
    (userLocale defaultLocal pwd : string) (evs : list Event) :
  Getwd os = inl pwd ->
  searchDirectory pwd pwd (ReadDir os pwd) = (evs, Panics) ->
  LoadFiles os userLocale defaultLocal = (evs, Panics).
Proof.
  intros Hwd Hrun. rewrite (LoadFiles_searches _ _ _ _ Hwd).
  unfold searches. by rewrite Hrun, !bind_Panics.
Qed.

Lemma searchEntry_unreadable (directory pwd name : string) :
  join_path directory name <> pwd ->
  searchEntry directory pwd (Directory name None)
  = ([EvReadDir (join_path directory name);
      EvLogError (if String.eqb name "i18n" then "loadTranslationFiles"
                  else "searchDirectory")],
     Returns tt).
Proof.
  intros Hne. apply String.eqb_neq in Hne. cbn [searchEntry].
  rewrite Hne. by destruct (String.eqb name "i18n").
Qed.

(** ** The claims on the traversal *)

(** C4, the code at the input of the claim. With the working directory [/w]
    holding one resource folder and [GOPATH] set to the same [/w],
    [LoadFiles] returns (there is no endless recursion), but it has read the
    resource folder [/w/i18n] twice and loaded its file twice, where the claim
    has each resource folder processed at most once. *)
Theorem LoadFiles_same_roots_processes_folder_twice :
  let run := LoadFiles os_same_roots "en-US" "en-US" in
  run.2 = Returns (Tfunc_err "en-US" "en-US") /\
  times_read "/w/i18n" run.1 = 2%nat /\
  loaded_files run.1 = ["/w/i18n/en.json"; "/w/i18n/en.json"].
Proof. repeat split. Qed.

(** C6, as amended. A scanned sub-directory whose full path is not the
    working directory is handled by its name alone. One named exactly
    [i18n] is not searched: it is read once, after that read every event is
    the load of one of its immediate entries with the extension [.json] (or
    the log of the failed read), and when each of those entries loads, all of
    them are loaded, in the order of the listing. Any other one is searched:
    it is read and, when the read succeeds, each of its entries is handled in
    turn, sub-directories included. A scanned sub-directory whose full path
    is the working directory is skipped whatever its name. In the example
    tree the files loaded are [root/i18n/fr.json] and [root/x/i18n/en.json],
    and not [root/i18n/sub/x.json]. *)
Theorem searchEntry_by_name :
  (forall (directory pwd name : string) (listing : option (list FileInfo)),
      join_path directory name <> pwd ->
      (name = "i18n" ->
         searchEntry directory pwd (Directory name listing)
         = loadTranslationFiles (join_path directory name) listing /\
         (exists evs,
            (searchEntry directory pwd (Directory name listing)).1
            = EvReadDir (join_path directory name) :: evs /\
            Forall (immediate_load (join_path directory name) listing) evs) /\
         (forall fileInfos, listing = Some fileInfos ->
            Forall (fun fileInfo => is_resource fileInfo = true ->
                                    loads_ok fileInfo = true) fileInfos ->
            searchEntry directory pwd (Directory name listing)
            = (EvReadDir (join_path directory name)
                 :: load_events (join_path directory name) fileInfos,
               Returns tt))) /\
      (name <> "i18n" ->
         searchEntry directory pwd (Directory name listing)
         = searchDirectory (join_path directory name) pwd listing /\
         forall fileInfos, listing = Some fileInfos ->
           searchEntry directory pwd (Directory name listing)
           = bind (emit (EvReadDir (join_path directory name)))
                  (fun _ => for_each (searchEntry (join_path directory name) pwd)
                              fileInfos))) /\
  (forall (directory pwd name : string) (listing : option (list FileInfo)),
      join_path directory name = pwd ->
      searchEntry directory pwd (Directory name listing) = ([], Returns tt)) /\
  loaded_files (searchDirectory "root" "root" (Some example_root)).1
  = ["root/i18n/fr.json"; "root/x/i18n/en.json"].
Proof.
  split; [| split; [| reflexivity]].
  - intros directory pwd name listing Hne.
    apply String.eqb_neq in Hne.
    split.
    + intros ->.
      assert (Heq : searchEntry directory pwd (Directory "i18n" listing)
                    = loadTranslationFiles (join_path directory "i18n") listing)
        by (cbn [searchEntry]; by rewrite Hne).
      split; [exact Heq |]. rewrite Heq.
      split; [apply loadTranslationFiles_events |].
      intros fileInfos -> Hloads. unfold loadTranslationFiles.
      by rewrite bind_emit, for_each_loadTranslationFile_ok.
    + intros Hname. apply String.eqb_neq in Hname.
      assert (Heq : searchEntry directory pwd (Directory name listing)
                    = searchDirectory (join_path directory name) pwd listing)
        by (cbn [searchEntry]; by rewrite Hne, Hname).
      split; [exact Heq |]. intros fileInfos ->. by rewrite Heq.
  - intros directory pwd name listing Heq.
    apply String.eqb_eq in Heq. cbn [searchEntry]. by rewrite Heq.
Qed.

(** C7. A directory read that fails is logged and the search goes on: the
    failing directory contributes its read and the log, the entries after it
    are still handled, and [LoadFiles] ends as [i18n.Tfunc] decides unless a
    translation file failed to load. A translation file that fails to load
    makes the call panic, the files loaded before it staying loaded. In
    [LoadJSON] a document that does not parse, or a record that cannot be
    made a translation, makes the call return that error at once; the
    translations added before the failing record stay added and the lookup
    function is not bound. *)
Theorem load_failures :
  (forall directory pwd : string,
      searchDirectory directory pwd None
      = ([EvReadDir directory; EvLogError "searchDirectory"], Returns tt) /\
      loadTranslationFiles directory None
      = ([EvReadDir directory; EvLogError "loadTranslationFiles"], Returns tt)) /\
  (forall (directory pwd name : string) (rest : list FileInfo),
      join_path directory name <> pwd ->
      exists function,
        for_each (searchEntry directory pwd) (Directory name None :: rest)
        = bind ([EvReadDir (join_path directory name); EvLogError function],
                Returns tt)
               (fun _ => for_each (searchEntry directory pwd) rest)) /\
  (forall (os : OS GoError) (userLocale defaultLocal pwd : string),
      Getwd os = inl pwd ->
      let run := LoadFiles os userLocale defaultLocal in
      (failed_loads run.1 = [] ->
         run.2 = Returns (Tfunc_err userLocale defaultLocal) /\
         exists evs, run.1 = evs ++ [EvTfunc userLocale defaultLocal]) /\
      (failed_loads run.1 <> [] -> run.2 = Panics) /\
      (forall evs, searchDirectory pwd pwd (ReadDir os pwd) = (evs, Panics) ->
         run = (evs, Panics))) /\
  (forall (directory : string) (pre post : list FileInfo) (fileInfo : FileInfo),
      Forall (fun fileInfo => is_resource fileInfo = true ->
                              loads_ok fileInfo = true) pre ->
      is_resource fileInfo = true -> loads_ok fileInfo = false ->
      let run := loadTranslationFiles directory (Some (pre ++ fileInfo :: post)) in
      run.2 = Panics /\
      loaded_files run.1
      = map (fun fileInfo => join_path directory (FileInfo_Name fileInfo))
            (List.filter is_resource pre)) /\
  (forall (userLocale translationDocument : string) (err : GoError),
      json_Unmarshal translationDocument = inr err ->
      LoadJSON userLocale translationDocument
      = ([EvLogError "LoadJSON"], Returns (Some err))) /\
  (forall (userLocale translationDocument : string)
          (pre post : list TranDocument) (trans : list Translation)
          (tranDocument : TranDocument) (err : GoError),
      json_Unmarshal translationDocument = inl (pre ++ tranDocument :: post) ->
      Forall2 (fun d tran => NewTranslation d = inl tran) pre trans ->
      NewTranslation tranDocument = inr err ->
      (pre <> [] -> locale_valid userLocale = true) ->
      let run := LoadJSON userLocale translationDocument in
      run = (map (EvAddTranslation userLocale) trans ++ [EvLogError "LoadJSON"],
             Returns (Some err)) /\
      added_translations run.1 = map (fun tran => (userLocale, tran)) trans).
Proof.
  split; [| split; [| split; [| split; [| split]]]].
  - intros directory pwd. split; reflexivity.
  - intros directory pwd name rest Hne. eexists.
    cbn [for_each]. by rewrite (searchEntry_unreadable _ _ _ Hne).
  - intros os userLocale defaultLocal pwd Hwd run.
    destruct (LoadFiles_outcome os userLocale defaultLocal pwd Hwd) as [Hok Hpanic].
    split; [exact Hok |]. split; [exact Hpanic |].
    intros evs Hrun. by apply LoadFiles_search_panics with (pwd := pwd).
  - intros directory pre post fileInfo Hpre Hres Hfail run. subst run.
    unfold loadTranslationFiles. rewrite bind_emit.
    rewrite (for_each_loadTranslationFile_fails _ _ _ _ Hpre Hres Hfail).
    cbn [fst snd]. split; [reflexivity |].
    cbn [loaded_files]. rewrite loaded_files_app, loaded_files_load_events.
    cbn [loaded_files]. by rewrite app_nil_r.
  - intros userLocale translationDocument err Hparse.
    unfold LoadJSON. by rewrite Hparse.
  - intros userLocale translationDocument pre post trans tranDocument err
      Hparse Hpre Hfail Hloc run. subst run.
    unfold LoadJSON. rewrite Hparse.
    rewrite (LoadJSON_loop_fails _ _ _ _ _ _ Hpre Hfail Hloc).
    rewrite bind_Returns. cbn [fst snd]. rewrite app_nil_r.
    split; [reflexivity |].
    rewrite added_translations_app. cbn [added_translations].
    rewrite app_nil_r. clear.
    induction trans as [| tran trans IH]; [reflexivity | cbn; by rewrite IH].
Qed.

End Traversal.

#[local] Existing Instance sample_i18n.

Lemma searchEntry_by_name_witness :
  join_path "root" "x" <> "root" /\
  searchEntry "root" "root" (Directory "x" (Some [i18n_folder]))
  = searchDirectory (join_path "root" "x") "root" (Some [i18n_folder]).
Proof.
  assert (Hne : join_path "root" "x" <> "root") by (vm_compute; discriminate).
  split; [exact Hne |].
  destruct (proj1 searchEntry_by_name "root" "root" "x" (Some [i18n_folder]) Hne)
    as [_ Hother].
  destruct Hother as [Heq _]; [discriminate | exact Heq].
Defined.

(** C6, as stated, fails on the working directory. Started in the resource
    folder [/g/i18n] with [GOPATH] at [/g], [LoadFiles] loads nothing: the
    first pass searches [/g/i18n] as any directory, the second skips it, so
    the [.json] file immediately inside a directory named [i18n] is not
    loaded. And below the secondary root [/g] the directory [w], being the
    working directory [/g/w], is not named [i18n] and yet is not searched:
    handling it produces no event, where searching it would read it and load
    [/g/w/i18n/en.json]. *)
Lemma working_directory_not_handled_by_name :
  (searchEntry "/g" "/g/i18n" i18n_folder = ([], Returns tt) /\
   loaded_files (LoadFiles os_in_resource_folder "en-US" "en-US").1 = []) /\
  (String.eqb "w" "i18n" = false /\
   searchEntry "/g" "/g/w" working_directory_entry = ([], Returns tt) /\
   loaded_files (searchDirectory "/g/w" "/g/w" (Some [i18n_folder])).1
   = ["/g/w/i18n/en.json"] /\
   searchEntry "/g" "/g/w" working_directory_entry
   <> searchDirectory "/g/w" "/g/w" (Some [i18n_folder])).
Proof. repeat split. discriminate. Qed.

Lemma load_failures_witness :
  (let run := loadTranslationFiles "/w/i18n" (Some broken_folder) in
   run.2 = Panics /\ loaded_files run.1 = ["/w/i18n/de.json"]) /\
  (let run := LoadJSON "en-US" "[{},{}]" in
   run.2 = Returns (Some "missing id") /\
   added_translations run.1 = [("en-US", "hello")]).
Proof.
  destruct load_failures as (_ & _ & _ & Hfile & _ & Hrecord).
  split.
  - apply (Hfile "/w/i18n" [File "de.json" true] [File "fr.json" true]
             (File "en.json" false)).
    + repeat constructor.
    + reflexivity.
    + reflexivity.
  - destruct (Hrecord "en-US" "[{},{}]" ["hello"] ["bye"] ["hello"] "" "missing id")
      as [Hrun Hadded].
    + reflexivity.
    + repeat constructor.
    + reflexivity.
    + reflexivity.
    + split; [| exact Hadded]. cbn zeta in Hrun. by rewrite Hrun.
Defined.

End localize_props.

(* ===================================================================== *)
(** * Further properties of package [web] *)
(* ===================================================================== *)

Module web_more.
Import web web_props.

Section Results.

Context `{ErrorTaxonomy} `{AuthTaxonomy}.

Lemma ServeValidationErrors_loop_fills (validationErrors : list ValidationError)
    (done rest : list string) :
  ServeValidationErrors_loop (length done) (Some <$> validationErrors)
    (done ++ replicate (length validationErrors) "" ++ rest)
  = Returns (done ++
             map (fun e => Field e +:+ ": " +:+ Message e) validationErrors ++
             rest).
Proof.
  revert done. induction validationErrors as [| e errs IH]; intros done.
  - reflexivity.
  - cbn [fmap list_fmap ServeValidationErrors_loop length replicate map app].
    rewrite insert_app_r_alt by lia. rewrite Nat.sub_diag. cbn [insert list_insert].
    specialize (IH (done ++ [Field e +:+ ": " +:+ Message e])).
    rewrite length_app, Nat.add_1_r, <- !app_assoc in IH.
    exact IH.
Qed.

Lemma ServeValidationErrors_loop_nil_entry (index : nat)
    (validationErrors : list (option ValidationError)) (response : list string) :
  None ∈ validationErrors ->
  ServeValidationErrors_loop index validationErrors response = Panics.
Proof.
  revert index response.
  induction validationErrors as [| [e |] rest IH]; intros index response Hin.
  - by apply elem_of_nil in Hin.
  - apply elem_of_cons in Hin as [Hin | Hin]; [discriminate |].
    cbn [ServeValidationErrors_loop]. by apply IH.
  - reflexivity.
Qed.

(** X1. ParseAndValidate returns true exactly when binding succeeded, the
    validator ran without error and reported the parameters valid; it then
    leaves the controller untouched. Whenever it returns false it has written
    one response, with status VALIDATION_ERROR_CODE. *)
Theorem ParseAndValidate_result (Params : Type)
    (ParseForm : BaseController -> Params -> Params * error)
    (Valid : Params -> ValidResult) (Fields : Params -> list StructField)
    (params : Params) (this : BaseController) :
  let bound := (ParseForm this params).1 in
  let run := ParseAndValidate Params ParseForm Valid Fields params this in
  (run.1 = true <->
     (ParseForm this params).2 = nil_error /\
     valid_err (Valid bound) = nil_error /\
     valid_ok (Valid bound) = true) /\
  (run.1 = true -> run.2 = this) /\
  (run.1 = false ->
     exists msgs, emits this run.2 VALIDATION_ERROR_CODE msgs).
Proof.
  cbn zeta. unfold ParseAndValidate.
  destruct (ParseForm this params) as [bound err]. cbn [fst snd].
  destruct (is_nil err) eqn:Hbind; cbn [negb].
  - apply is_nil_true in Hbind as ->.
    destruct (is_nil (valid_err (Valid bound))) eqn:Hrun; cbn [negb].
    + apply is_nil_true in Hrun. rewrite Hrun.
      destruct (valid_ok (Valid bound)); cbn [negb fst snd].
      * split; [tauto |]. split; [done | discriminate].
      * split; [split; [discriminate | intros (_ & _ & [=])] |].
        split; [discriminate |]. intros _. eexists.
        apply ServeMessagesWithStatus_emits.
    + apply is_nil_false in Hrun. cbn [fst snd].
      split; [split; [discriminate | intros (_ & ? & _); done] |].
      split; [discriminate |]. intros _. eexists.
      apply ServeMessageWithStatus_emits.
  - apply is_nil_false in Hbind. cbn [fst snd].
    split; [split; [discriminate | intros (? & _); done] |].
    split; [discriminate |]. intros _. eexists.
    apply ServeMessageWithStatus_emits.
Qed.

(** X2. ServeValidationErrors on entries that are all present returns having
    written one response, with status VALIDATION_ERROR_CODE, whose messages
    are, in the order of the entries, the field name, a colon and a space,
    and the entry's message; no entries give an empty list of messages. *)
Theorem ServeValidationErrors_messages
    (validationErrors : list ValidationError) (this : BaseController) :
  exists this',
    ServeValidationErrors (Some <$> validationErrors) this = Returns this' /\
    Status this' = VALIDATION_ERROR_CODE /\
    emits this this' VALIDATION_ERROR_CODE
      (map (fun e => Field e +:+ ": " +:+ Message e) validationErrors) /\
    (validationErrors = [] -> emits this this' VALIDATION_ERROR_CODE []).
Proof.
  unfold ServeValidationErrors. rewrite length_fmap.
  pose proof (ServeValidationErrors_loop_fills validationErrors [] []) as Hloop.
  cbn [app length] in Hloop. rewrite !app_nil_r in Hloop. rewrite Hloop.
  eexists. split; [reflexivity |]. split; [reflexivity |].
  split; [reflexivity |]. by intros ->.
Qed.

(** X3. ServeValidationErrors panics on a list that holds a nil entry,
    wherever in the list the entry is. *)
Theorem ServeValidationErrors_nil_entry
    (validationErrors : list (option ValidationError)) (this : BaseController) :
  None ∈ validationErrors ->
  ServeValidationErrors validationErrors this = Panics.
Proof.
  intros Hin. unfold ServeValidationErrors.
  by rewrite ServeValidationErrors_loop_nil_entry.
Qed.

(** X4. When binding fails or the validator itself fails, ParseAndValidate
    leaves the controller exactly as ServeValidationError does. *)
Theorem ParseAndValidate_short_circuit_is_ServeValidationError (Params : Type)
    (ParseForm : BaseController -> Params -> Params * error)
    (Valid : Params -> ValidResult) (Fields : Params -> list StructField)
    (params : Params) (this : BaseController) :
  short_circuits Params ParseForm Valid params this ->
  ParseAndValidate Params ParseForm Valid Fields params this
  = (false, ServeValidationError this).
Proof.
  unfold short_circuits, ParseAndValidate.
  destruct (ParseForm this params) as [bound err]. cbn [fst snd].
  intros [Hfail | Hfail].
  - apply is_nil_false in Hfail. by rewrite Hfail.
  - destruct (is_nil err); cbn [negb]; [| reflexivity].
    apply is_nil_false in Hfail. by rewrite Hfail.
Qed.

(** X5. No serving function rewrites or drops a response written earlier,
    and each call writes at most one: the output afterwards is the output
    before, followed by one response carrying the status and the document the
    controller is left with (ParseAndValidate returning true writes none). *)
Theorem serving_appends_one_response (this : BaseController) :
  (forall status msgs,
      at_most_one_response this (ServeMessagesWithStatus status msgs this)) /\
  (forall status msg,
      at_most_one_response this (ServeMessageWithStatus status msg this)) /\
  (forall err, at_most_one_response this (ServeError err this)) /\
  (forall err this',
      ServeErrorResponse err this = Returns this' ->
      at_most_one_response this this') /\
  at_most_one_response this (ServeAppError this) /\
  at_most_one_response this (ServeUnAuthorized this) /\
  at_most_one_response this (ServeValidationError this) /\
  (forall validationErrors this',
      ServeValidationErrors validationErrors this = Returns this' ->
      at_most_one_response this this') /\
  (forall Params ParseForm Valid Fields params,
      at_most_one_response this
        (ParseAndValidate Params ParseForm Valid Fields params this).2).
Proof.
  repeat split.
  - intros. by right.
  - intros. by right.
  - intros err. unfold ServeError.
    destruct err as [| e |]; [by right | | by right].
    destruct (negb _); by right.
  - intros err this'. unfold ServeErrorResponse.
    destruct err as [| e | text]; cbn; [discriminate | |].
    + destruct (negb _); intros [= <-]; by right.
    + intros [= <-]. by right.
  - by right.
  - by right.
  - by right.
  - intros validationErrors this'. unfold ServeValidationErrors.
    destruct (ServeValidationErrors_loop _ _ _); [| discriminate].
    intros [= <-]. by right.
  - intros Params ParseForm Valid Fields params. unfold ParseAndValidate.
    destruct (ParseForm this params) as [bound err].
    destruct (negb (is_nil err)); [by right |].
    destruct (negb (is_nil _)); [by right |].
    destruct (negb (valid_ok _)); [by right | by left].
Qed.

End Results.

(** X6. The message for a reported failure is decided by the last declared
    field that bears the failure's field name: the value of its [error] tag,
    empty or not; only when no declared field bears that name is it the
    validator's own message. *)
Theorem message_of_last_declared (fields : list StructField)
    (err : ValidationError) :
  message_of (build_messages2 fields) err
  = match last_declared fields (Field err) with
    | Some typeField => Tag_Get (Tag typeField) "error"
    | None => Message err
    end.
Proof.
  unfold message_of, last_declared.
  induction fields as [| typeField fields IH] using rev_ind; [reflexivity |].
  rewrite build_messages2_snoc, List.filter_app. cbn [List.filter].
  destruct (String.eqb_spec (Name typeField) (Field err)) as [Heq | Hne].
  - rewrite Heq, lookup_insert_eq, last_snoc. reflexivity.
  - rewrite lookup_insert_ne by done. by rewrite app_nil_r.
Qed.

#[local] Existing Instance sample_taxonomy.
#[local] Existing Instance sample_auth.

Lemma ServeValidationErrors_nil_entry_witness :
  None ∈ [Some failure_A; None; Some failure_B] /\
  ServeValidationErrors [Some failure_A; None; Some failure_B] blank_controller
  = Panics.
Proof.
  assert (Hin : None ∈ [Some failure_A; None; Some failure_B])
    by (apply list_elem_of_further, list_elem_of_here).
  split; [exact Hin |].
  exact (ServeValidationErrors_nil_entry _ blank_controller Hin).
Defined.

Lemma ParseAndValidate_short_circuit_is_ServeValidationError_witness :
  short_circuits unit failing_binder failing_validator tt blank_controller /\
  ParseAndValidate unit failing_binder failing_validator (fun _ => []) tt
    blank_controller
  = (false, ServeValidationError blank_controller).
Proof.
  assert (Hfail : short_circuits unit failing_binder failing_validator tt
                    blank_controller) by (left; discriminate).
  split; [exact Hfail |].
  exact (ParseAndValidate_short_circuit_is_ServeValidationError unit
           failing_binder failing_validator (fun _ => []) tt blank_controller
           Hfail).
Defined.

End web_more.

(* ===================================================================== *)
(** * Properties of the object-serving functions *)
(* ===================================================================== *)

Module web_cache_props.
Import web_cache.

Lemma strip_prefix_app (prefix s : string) :
  strip_prefix prefix (prefix +:+ s) = Some s.
Proof.
  induction prefix as [| a prefix IH]; [by destruct s |].
  change (String a prefix +:+ s) with (String a (prefix +:+ s)).
  cbn [strip_prefix]. by rewrite Ascii.eqb_refl.
Qed.

(** A numeral written by [%d] reads back as the number. *)
Lemma Sprintf_d_reads_back (n : Z) :
  option_map Z.of_int (NilZero.int_of_string (Sprintf_d n)) = Some n.
Proof.
  unfold Sprintf_d. rewrite NilZero.isi.
  - cbn [option_map]. by rewrite DecimalZ.of_to.
  - destruct n; cbn; [discriminate | | discriminate].
    intros [= Hnil]. by apply DecimalPos.Unsigned.to_uint_nonnil in Hnil.
  - destruct n; cbn; [discriminate | discriminate |].
    intros [= Hnil]. by apply DecimalPos.Unsigned.to_uint_nonnil in Hnil.
Qed.

Section Objects.

Context {Obj : Type}.
Implicit Types (this : Controller Obj) (obj : Obj).

(** X7. CacheOutput makes one more header call, on [Cache-control], and
    writes nothing; the value it passes reads back as the number of seconds
    it was given, whatever that number is: CacheOutput itself has no guard,
    a zero or negative number is written as it is. *)
Theorem CacheOutput_directive_reads_back (seconds : Z) this :
  Ctx_Headers (CacheOutput seconds this)
  = Ctx_Headers this ++ [("Cache-control", cache_directive seconds)] /\
  max_age (cache_directive seconds) = Some seconds /\
  Responses (CacheOutput seconds this) = Responses this /\
  Ctx_Status (CacheOutput seconds this) = Ctx_Status this.
Proof.
  split; [reflexivity |]. split; [| split; reflexivity].
  unfold max_age, cache_directive.
  rewrite strip_prefix_app. apply Sprintf_d_reads_back.
Qed.

(** X8. ServeJsonWithCache writes exactly one response, holding the object
    under the status the controller had. It sets the cache header exactly
    when the number of seconds is positive, and the response then carries
    it; for zero or a negative number no header is set and the call is
    ServeJsonModel. *)
Theorem ServeJsonWithCache_header obj (secondsToCache : Z) this :
  let this' := ServeJsonWithCache obj secondsToCache this in
  Responses this'
  = Responses this ++ [ {| written_status := Ctx_Status this;
                           written_headers := Ctx_Headers this';
                           written_body := Some (json_obj obj) |} ] /\
  (0 < secondsToCache ->
     Ctx_Headers this'
     = Ctx_Headers this ++ [("Cache-control", cache_directive secondsToCache)]) /\
  (secondsToCache <= 0 ->
     Ctx_Headers this' = Ctx_Headers this /\
     this' = ServeJsonModel obj this).
Proof.
  cbn zeta. unfold ServeJsonModel, ServeJsonWithCache.
  destruct (Z.ltb_spec 0 secondsToCache) as [Hpos | Hle].
  - split; [reflexivity |]. split; [reflexivity | lia].
  - split; [reflexivity |]. split; [lia |]. by intros _.
Qed.

(** X9. A header set by CacheOutput stays for the response served next:
    after [CacheOutput seconds], each of ServeBlankModel, ServeBlankModelList
    and ServeJsonModel writes one response that carries the headers set
    before plus the cache directive, and none of the three adds a header or
    changes the status. *)
Theorem cache_header_is_carried (seconds : Z) obj this :
  let headers := Ctx_Headers this ++ [("Cache-control", cache_directive seconds)] in
  let written body :=
    Responses this ++ [ {| written_status := Ctx_Status this;
                           written_headers := headers;
                           written_body := Some body |} ] in
  Responses (ServeBlankModel (CacheOutput seconds this))
  = written json_blank_model /\
  Responses (ServeBlankModelList (CacheOutput seconds this))
  = written json_blank_model_list /\
  Responses (ServeJsonModel obj (CacheOutput seconds this))
  = written (json_obj obj) /\
  Ctx_Headers (ServeBlankModel this) = Ctx_Headers this /\
  Ctx_Headers (ServeBlankModelList this) = Ctx_Headers this /\
  Ctx_Headers (ServeJsonModel obj this) = Ctx_Headers this.
Proof. repeat split. Qed.

End Objects.

Lemma ServeJsonWithCache_header_witness :
  0 < 60 /\
  Ctx_Headers (ServeJsonWithCache "model" 60 blank)
  = [("Cache-control", "private, must-revalidate, max-age=60")].
Proof.
  split; [lia |].
  destruct (ServeJsonWithCache_header "model" 60 blank) as (_ & Hpos & _).
  rewrite Hpos by lia. reflexivity.
Defined.

End web_cache_props.

(* ===================================================================== *)
(** * Further properties of package [localize] *)
(* ===================================================================== *)

Module localize_more.
Import localize localize_props.

(** ** Strings and paths *)

Lemma string_app_cons (a : ascii) (s t : string) :
  String a s +:+ t = String a (s +:+ t).
Proof. reflexivity. Qed.

Lemma string_app_nil_r (s : string) : s +:+ "" = s.
Proof. induction s as [| a s IH]; [done |]. by rewrite string_app_cons, IH. Qed.

Lemma string_app_assoc (s t u : string) : (s +:+ t) +:+ u = s +:+ (t +:+ u).
Proof.
  induction s as [| a s IH]; [done |]. by rewrite !string_app_cons, IH.
Qed.

Lemma string_app_length (s t : string) :
  String.length (s +:+ t) = (String.length s + String.length t)%nat.
Proof.
  induction s as [| a s IH]; [done |].
  rewrite string_app_cons. cbn [String.length]. by rewrite IH.
Qed.

Lemma join_path_length (directory name : string) :
  String.length (join_path directory name)
  = S (String.length directory + String.length name).
Proof.
  unfold join_path. rewrite !string_app_length. cbn [String.length]. lia.
Qed.

Lemma join_path_app (directory name rest : string) :
  join_path directory name +:+ rest = directory +:+ "/" +:+ (name +:+ rest).
Proof. unfold join_path. by rewrite !string_app_assoc. Qed.

Lemma under_length (p q : string) :
  under p q -> (String.length p <= String.length q)%nat.
Proof.
  intros [-> | [rest ->]]; [done |]. rewrite string_app_length. lia.
Qed.

(** A path below [directory/name] is strictly below [directory]. *)
Lemma under_join_path (directory name q : string) :
  under (join_path directory name) q ->
  exists rest, q = directory +:+ "/" +:+ rest.
Proof.
  intros [-> | [rest ->]]; [by exists name |].
  exists (name +:+ "/" +:+ rest). apply join_path_app.
Qed.

Lemma under_join_path_under (directory name q : string) :
  under (join_path directory name) q -> under directory q.
Proof. intros Hq. right. by apply (under_join_path directory name). Qed.

Lemma under_join_path_ne (directory name q : string) :
  under (join_path directory name) q -> q <> directory.
Proof.
  intros Hq%under_length ->. rewrite join_path_length in Hq. lia.
Qed.

(** Two slash-free names followed by nothing or by a slash: equal wholes
    have equal names. *)
Lemma slash_free_head (n1 n2 s1 s2 : string) :
  no_slash n1 = true -> no_slash n2 = true ->
  (s1 = "" \/ exists r, s1 = "/" +:+ r) ->
  (s2 = "" \/ exists r, s2 = "/" +:+ r) ->
  n1 +:+ s1 = n2 +:+ s2 -> n1 = n2.
Proof.
  revert n2. induction n1 as [| c n1 IH]; intros [| c' n2] H1 H2 Hs1 Hs2 Heq.
  - done.
  - exfalso. cbn in Heq. rewrite string_app_cons in Heq.
    destruct Hs1 as [-> | [r ->]]; [discriminate |].
    cbn in Heq. injection Heq as <- _. discriminate H2.
  - exfalso. rewrite string_app_cons in Heq. cbn in Heq.
    destruct Hs2 as [-> | [r ->]]; [discriminate |].
    cbn in Heq. injection Heq as -> _. discriminate H1.
  - rewrite !string_app_cons in Heq. injection Heq as -> Heq.
    cbn in H1, H2. apply andb_prop in H1 as [_ H1], H2 as [_ H2].
    f_equal. by apply (IH n2).
Qed.

(** Sub-trees of different entries of one directory share no path. *)
Lemma under_siblings (directory n1 n2 q : string) :
  no_slash n1 = true -> no_slash n2 = true ->
  under (join_path directory n1) q -> under (join_path directory n2) q ->
  n1 = n2.
Proof.
  intros H1 H2 Hq1 Hq2.
  assert (Hsplit : forall n, under (join_path directory n) q ->
            exists s, q = directory +:+ "/" +:+ (n +:+ s) /\
                      (s = "" \/ exists r, s = "/" +:+ r)).
  { intros n [-> | [r ->]].
    - exists "". rewrite string_app_nil_r. split; [done | by left].
    - exists ("/" +:+ r). rewrite join_path_app. split; [done | right; by exists r]. }
  destruct (Hsplit n1 Hq1) as (s1 & -> & Hs1).
  destruct (Hsplit n2 Hq2) as (s2 & Heq & Hs2).
  apply (inj (String.app directory)) in Heq.
  injection Heq as Heq.
  by apply (slash_free_head n1 n2 s1 s2).
Qed.

(** ** The extension of a name *)

Lemma Ext_scan_suffix (path ext : string) :
  Ext_scan path = Some ext -> ends_with ext path.
Proof.
  revert ext. induction path as [| c rest IH]; intros ext; [discriminate |].
  cbn [Ext_scan]. destruct (Ext_scan rest) as [ext' |].
  - intros [= <-]. destruct (IH ext' eq_refl) as [base ->].
    by exists (String c base).
  - destruct (Ascii.eqb c "."); [intros [= <-]; by exists "" |].
    destruct (Ascii.eqb c "/"); [| discriminate].
    intros [= <-]. exists (String c rest). by rewrite string_app_nil_r.
Qed.

Lemma Ext_scan_json (base : string) :
  Ext_scan (base +:+ ".json") = Some ".json".
Proof.
  induction base as [| c base IH]; [reflexivity |].
  rewrite string_app_cons. cbn [Ext_scan]. by rewrite IH.
Qed.

Lemma is_resource_ends_with (fileInfo : FileInfo) :
  is_resource fileInfo = true <-> ends_with ".json" (FileInfo_Name fileInfo).
Proof.
  unfold is_resource, Ext. rewrite String.eqb_eq. split.
  - destruct (Ext_scan (FileInfo_Name fileInfo)) as [ext |] eqn:Hscan;
      [| discriminate].
    intros ->. by apply Ext_scan_suffix.
  - intros [base ->]. by rewrite Ext_scan_json.
Qed.

Section More.

Context `{I18n}.

(** ** Events of a sequence and of a loop *)

Lemma bind_events {A B : Type} (m : Eff A) (f : A -> Eff B) :
  (bind m f).1
  = m.1 ++ match m.2 with Returns a => (f a).1 | Panics => [] end.
Proof.
  destruct m as [evs [a |]]; cbn; [by destruct (f a) | by rewrite app_nil_r].
Qed.

Lemma for_each_event {A : Type} (body : A -> Eff unit) (l : list A)
    (ev : Event) :
  ev ∈ (for_each body l).1 -> exists x, x ∈ l /\ ev ∈ (body x).1.
Proof.
  induction l as [| x rest IH]; cbn [for_each].
  - intros Hin. by apply elem_of_nil in Hin.
  - rewrite bind_events, elem_of_app. intros [Hin | Hin].
    + exists x. split; [apply list_elem_of_here | done].
    + destruct ((body x).2); [| by apply elem_of_nil in Hin].
      destruct (IH Hin) as (y & Hy & Hev).
      exists y. split; [by apply list_elem_of_further | done].
Qed.

Lemma for_each_ext {A : Type} (body1 body2 : A -> Eff unit) (l : list A) :
  Forall (fun x => body1 x = body2 x) l ->
  for_each body1 l = for_each body2 l.
Proof.
  induction 1 as [| x rest Hx _ IH]; [done |].
  cbn [for_each]. by rewrite Hx, IH.
Qed.

Lemma reads_app (evs1 evs2 : list Event) :
  reads (evs1 ++ evs2) = reads evs1 ++ reads evs2.
Proof.
  induction evs1 as [| ev evs1 IH]; [done |].
  destruct ev; cbn; by rewrite ?IH.
Qed.

Lemma elem_of_reads (q : string) (evs : list Event) :
  q ∈ reads evs <-> EvReadDir q ∈ evs.
Proof.
  induction evs as [| ev evs IH].
  - cbn. by rewrite !elem_of_nil.
  - destruct ev as [d | | | |]; cbn [reads]; rewrite !elem_of_cons, IH;
      [split; (intros [Heq | Hin]; [left; congruence | by right])
      | split; [by right | intros [Heq | Hin]; [discriminate | done]] ..].
Qed.

Lemma elem_of_loaded_files (fileName : string) (evs : list Event) :
  fileName ∈ loaded_files evs <-> EvLoadFile fileName true ∈ evs.
Proof.
  induction evs as [| ev evs IH].
  - cbn. by rewrite !elem_of_nil.
  - destruct ev as [| | f [|] | |]; cbn [loaded_files];
      rewrite !elem_of_cons, IH;
      try (split; [by right | intros [Heq | Hin]; [discriminate | done]]).
    split; (intros [Heq | Hin]; [left; congruence | by right]).
Qed.

Lemma times_read_absent (q : string) (evs : list Event) :
  q ∉ reads evs -> times_read q evs = 0%nat.
Proof.
  unfold times_read. induction evs as [| ev evs IH]; [done |].
  destruct ev as [d | | | |]; cbn [reads List.filter is_ReadDir]; try exact IH.
  rewrite not_elem_of_cons. intros [Hne Hout].
  destruct (String.eqb_spec d q) as [-> | _]; [done | by apply IH].
Qed.

Lemma times_read_NoDup (q : string) (evs : list Event) :
  NoDup (reads evs) -> (times_read q evs <= 1)%nat.
Proof.
  induction evs as [| ev evs IH]; [cbn; lia |].
  destruct ev as [d | | | |]; cbn [reads]; try exact IH.
  rewrite NoDup_cons. intros [Hout Hnd].
  unfold times_read. cbn [List.filter is_ReadDir].
  destruct (String.eqb_spec d q) as [-> | _]; [| by apply IH].
  cbn [length]. fold (times_read q evs). by rewrite times_read_absent.
Qed.

(** ** Where a search reads *)

Lemma loadTranslationFiles_reads (directory : string)
    (listing : option (list FileInfo)) :
  reads (loadTranslationFiles directory listing).1 = [directory].
Proof.
  destruct (loadTranslationFiles_events directory listing) as (evs & -> & Hevs).
  cbn [reads]. f_equal.
  induction Hevs as [| ev evs Hev _ IH]; [done |].
  destruct Hev as [-> | (? & ? & ? & _ & _ & _ & ->)]; exact IH.
Qed.

(** Handling an entry reads only that entry and what is below it. *)
Lemma searchEntry_reads_under (fileInfo : FileInfo) :
  forall directory pwd q,
    q ∈ reads (searchEntry directory pwd fileInfo).1 ->
    under (join_path directory (FileInfo_Name fileInfo)) q.
Proof.
  induction fileInfo as [name loads | name | name fileInfos IH]
    using FileInfo_ind; intros directory pwd q; cbn [searchEntry FileInfo_Name].
  - intros Hin. by apply elem_of_nil in Hin.
  - destruct (String.eqb _ pwd); [intros Hin; by apply elem_of_nil in Hin |].
    destruct (String.eqb name "i18n").
    + rewrite loadTranslationFiles_reads, list_elem_of_singleton.
      intros ->. by left.
    + cbn. rewrite list_elem_of_singleton. intros ->. by left.
  - destruct (String.eqb _ pwd); [intros Hin; by apply elem_of_nil in Hin |].
    destruct (String.eqb name "i18n").
    + rewrite loadTranslationFiles_reads, list_elem_of_singleton.
      intros ->. by left.
    + rewrite bind_emit. cbn [fst reads]. rewrite elem_of_cons.
      intros [-> | Hin]; [by left |].
      apply elem_of_reads, for_each_event in Hin as (entry & Hentry & Hev).
      apply elem_of_reads in Hev.
      rewrite Forall_forall in IH.
      eapply under_join_path_under, IH; [exact Hentry | exact Hev].
Qed.

Lemma well_formed_name (fileInfo : FileInfo) :
  well_formed fileInfo -> no_slash (FileInfo_Name fileInfo) = true.
Proof.
  destruct fileInfo as [name loads | name [fileInfos |]]; cbn; tauto.
Qed.

Lemma well_formed_entries (fileInfos : list FileInfo) :
  foldr (fun entry rest => well_formed entry /\ rest) True fileInfos <->
  Forall well_formed fileInfos.
Proof.
  induction fileInfos as [| entry rest IH]; cbn [foldr].
  - split; [constructor | done].
  - rewrite Forall_cons, IH. tauto.
Qed.

(** In a loop over the entries of one directory no directory is read twice,
    provided none is read twice while handling any single entry. *)
Lemma for_each_searchEntry_NoDup (directory pwd : string)
    (fileInfos : list FileInfo) :
  NoDup (FileInfo_Name <$> fileInfos) ->
  Forall (fun entry =>
            no_slash (FileInfo_Name entry) = true /\
            NoDup (reads (searchEntry directory pwd entry).1)) fileInfos ->
  NoDup (reads (for_each (searchEntry directory pwd) fileInfos).1).
Proof.
  induction fileInfos as [| entry rest IH]; [constructor |].
  rewrite fmap_cons, NoDup_cons, Forall_cons.
  intros [Hfresh Hnames] [[Hslash Hentry] Hrest].
  cbn [for_each]. rewrite bind_events, reads_app.
  destruct ((searchEntry directory pwd entry).2);
    [| cbn [reads]; by rewrite app_nil_r].
  apply NoDup_app. split; [exact Hentry |]. split; [| by apply IH].
  intros q Hq Hq'. apply searchEntry_reads_under in Hq.
  apply elem_of_reads, for_each_event in Hq' as (other & Hother & Hev).
  apply elem_of_reads, searchEntry_reads_under in Hev.
  apply Hfresh. rewrite Forall_forall in Hrest.
  assert (Hslash' : no_slash (FileInfo_Name other) = true)
    by (by apply Hrest).
  rewrite (under_siblings directory _ _ q Hslash Hslash' Hq Hev).
  by apply list_elem_of_fmap_2.
Qed.

Lemma searchEntry_NoDup (fileInfo : FileInfo) :
  well_formed fileInfo ->
  forall directory pwd, NoDup (reads (searchEntry directory pwd fileInfo).1).
Proof.
  induction fileInfo as [name loads | name | name fileInfos IH]
    using FileInfo_ind; intros Hwf directory pwd; cbn [searchEntry].
  - constructor.
  - destruct (String.eqb _ pwd); [constructor |].
    destruct (String.eqb name "i18n").
    + rewrite loadTranslationFiles_reads. apply NoDup_singleton.
    + cbn. apply NoDup_singleton.
  - destruct (String.eqb _ pwd); [constructor |].
    destruct (String.eqb name "i18n").
    + rewrite loadTranslationFiles_reads. apply NoDup_singleton.
    + destruct Hwf as (_ & Hnames & Hentries).
      apply well_formed_entries in Hentries.
      rewrite bind_emit. cbn [fst reads]. apply NoDup_cons. split.
      * intros Hin.
        apply elem_of_reads, for_each_event in Hin as (entry & _ & Hev).
        apply elem_of_reads, searchEntry_reads_under in Hev.
        by apply under_join_path_ne in Hev.
      * apply for_each_searchEntry_NoDup; [exact Hnames |].
        rewrite Forall_forall in IH, Hentries. apply Forall_forall.
        intros entry Hentry. split.
        -- by apply well_formed_name, Hentries.
        -- apply IH; [exact Hentry | by apply Hentries].
Qed.

Lemma searchDirectory_NoDup (directory pwd : string)
    (listing : option (list FileInfo)) :
  well_formed_listing listing ->
  NoDup (reads (searchDirectory directory pwd listing).1).
Proof.
  intros Hwf. unfold searchDirectory. rewrite bind_emit. cbn [fst reads].
  destruct listing as [fileInfos |]; [| cbn; apply NoDup_singleton].
  destruct Hwf as [Hnames Hentries].
  apply NoDup_cons. split.
  - intros Hin.
    apply elem_of_reads, for_each_event in Hin as (entry & _ & Hev).
    apply elem_of_reads, searchEntry_reads_under in Hev.
    by apply under_join_path_ne in Hev.
  - apply for_each_searchEntry_NoDup; [exact Hnames |].
    rewrite Forall_forall in Hentries. apply Forall_forall.
    intros entry Hentry. split.
    + by apply well_formed_name, Hentries.
    + by apply searchEntry_NoDup, Hentries.
Qed.

(** X10. In a resource folder an entry is handed to the translation store
    exactly when its name ends in [.json] (compared as written, so not
    [.JSON]), be it a file or a directory; the path handed over is the folder
    path, a slash and the name. An entry with another name is passed over
    without any effect. *)
Theorem loadTranslationFile_by_suffix (directory : string)
    (fileInfo : FileInfo) :
  (is_resource fileInfo = true <-> ends_with ".json" (FileInfo_Name fileInfo)) /\
  (ends_with ".json" (FileInfo_Name fileInfo) ->
     loadTranslationFile directory fileInfo
     = ([EvLoadFile (join_path directory (FileInfo_Name fileInfo))
           (loads_ok fileInfo)],
        if loads_ok fileInfo then Returns tt else Panics)) /\
  (~ ends_with ".json" (FileInfo_Name fileInfo) ->
     loadTranslationFile directory fileInfo = ([], Returns tt)).
Proof.
  split; [apply is_resource_ends_with |].
  unfold loadTranslationFile, MustLoadTranslationFile.
  fold (is_resource fileInfo). split.
  - intros Hends. apply is_resource_ends_with in Hends. rewrite Hends.
    cbn [negb]. by destruct (loads_ok fileInfo).
  - intros Hnot. destruct (is_resource fileInfo) eqn:Hres; [| reflexivity].
    by apply is_resource_ends_with in Hres.
Qed.

(** ** [LoadJSON] and [Init] *)

Lemma LoadJSON_loop_succeeds (userLocale : string)
    (tranDocuments : list TranDocument) (trans : list Translation) :
  Forall2 (fun d tran => NewTranslation d = inl tran) tranDocuments trans ->
  (tranDocuments <> [] -> locale_valid userLocale = true) ->
  LoadJSON_loop userLocale tranDocuments
  = (map (EvAddTranslation userLocale) trans, Returns None).
Proof.
  intros Hall Hloc. induction Hall as [| d tran docs trans Hd _ IH].
  - reflexivity.
  - cbn [LoadJSON_loop]. rewrite Hd, Hloc by discriminate.
    rewrite IH by (intros _; apply Hloc; discriminate).
    reflexivity.
Qed.



(** X13. Init drops the error of LoadJSON: it makes the same calls, panics
    when LoadJSON panics and otherwise returns normally whatever LoadJSON
    returned. In particular, when the built-in document does not parse, Init
    returns with the failure logged and the lookup function not bound. *)
Theorem Init_drops_error (En_US userLocale : string) :
  (Init En_US userLocale).1 = (LoadJSON userLocale En_US).1 /\
  ((Init En_US userLocale).2 = Panics <->
   (LoadJSON userLocale En_US).2 = Panics) /\
  (forall r, (LoadJSON userLocale En_US).2 = Returns r ->
     (Init En_US userLocale).2 = Returns tt) /\
  (forall err, json_Unmarshal En_US = inr err ->
     Init En_US userLocale = ([EvLogError "LoadJSON"], Returns tt) /\
     binds_lookup (Init En_US userLocale).1 = false).
Proof.
  unfold Init.
  split; [| split; [| split]].
  - rewrite bind_events. destruct ((LoadJSON userLocale En_US).2);
      cbn; by rewrite app_nil_r.
  - destruct (LoadJSON userLocale En_US) as [evs [r |]]; cbn; split; done.
  - intros r. destruct (LoadJSON userLocale En_US) as [evs [r' |]]; cbn;
      [done | discriminate].
  - intros err Hparse. unfold LoadJSON. rewrite Hparse. by split.
Qed.

(** ** One pass reads no directory twice *)

Lemma times_read_app (directory : string) (evs1 evs2 : list Event) :
  times_read directory (evs1 ++ evs2)
  = (times_read directory evs1 + times_read directory evs2)%nat.
Proof. unfold times_read. by rewrite List.filter_app, length_app. Qed.

(** X14. In one search of a tree as a file system holds it (no slash in a
    name, no two entries of a directory with the same name) no directory is
    read twice, whatever the working directory given, and whether or not the
    search ends in a panic. *)
Theorem searchDirectory_reads_once (directory pwd : string)
    (listing : option (list FileInfo)) :
  well_formed_listing listing ->
  NoDup (reads (searchDirectory directory pwd listing).1) /\
  forall q, (times_read q (searchDirectory directory pwd listing).1 <= 1)%nat.
Proof.
  intros Hwf.
  pose proof (searchDirectory_NoDup directory pwd listing Hwf) as Hnd.
  split; [exact Hnd |]. intros q. by apply times_read_NoDup.
Qed.

Lemma LoadFiles_events (os : OS GoError) (userLocale defaultLocal pwd : string) :
  Getwd os = inl pwd ->
  exists evs1 evs2 evs3,
    (LoadFiles os userLocale defaultLocal).1 = evs1 ++ evs2 ++ evs3 /\
    (evs1 = (searchDirectory pwd pwd (ReadDir os pwd)).1) /\
    (evs2 = [] \/
     GOPATH os <> "" /\
     evs2 = (searchDirectory (GOPATH os) pwd (ReadDir os (GOPATH os))).1) /\
    (evs3 = [] /\ (LoadFiles os userLocale defaultLocal).2 = Panics \/
     evs3 = [EvTfunc userLocale defaultLocal] /\
     (LoadFiles os userLocale defaultLocal).2
     = Returns (Tfunc_err userLocale defaultLocal)).
Proof.
  intros Hwd. rewrite (LoadFiles_searches _ _ _ _ Hwd). unfold searches.
  destruct (searchDirectory pwd pwd (ReadDir os pwd)) as [evs1 [[] |]].
  - rewrite bind_Returns. cbn [fst snd].
    destruct (String.eqb_spec (GOPATH os) "") as [Hgo | Hgo]; cbn [negb].
    + exists evs1, [], [EvTfunc userLocale defaultLocal].
      cbn. rewrite !app_nil_r. split; [done |]. split; [done |].
      split; [by left | by right].
    + destruct (searchDirectory (GOPATH os) pwd (ReadDir os (GOPATH os)))
        as [evs2 [[] |]].
      * exists evs1, evs2, [EvTfunc userLocale defaultLocal].
        cbn. rewrite <- app_assoc. split; [done |]. split; [done |].
        split; [right; by split | by right].
      * exists evs1, evs2, []. cbn. rewrite app_nil_r.
        split; [done |]. split; [done |]. split; [right; by split | by left].
  - exists evs1, [], []. cbn. rewrite !app_nil_r.
    split; [done |]. split; [done |]. split; by left.
Qed.

(** X15. LoadFiles, on trees as a file system holds them, reads no directory
    more than twice, and none more than once when [GOPATH] is not set. *)
Theorem LoadFiles_reads_at_most_twice (os : OS GoError)
    (userLocale defaultLocal pwd : string) :
  Getwd os = inl pwd ->
  well_formed_listing (ReadDir os pwd) ->
  well_formed_listing (ReadDir os (GOPATH os)) ->
  forall q,
    (times_read q (LoadFiles os userLocale defaultLocal).1 <= 2)%nat /\
    (GOPATH os = "" ->
     (times_read q (LoadFiles os userLocale defaultLocal).1 <= 1)%nat).
Proof.
  intros Hwd Hpwd Hgopath q.
  destruct (LoadFiles_events os userLocale defaultLocal pwd Hwd)
    as (evs1 & evs2 & evs3 & -> & -> & Hevs2 & Hevs3).
  rewrite !times_read_app.
  pose proof (times_read_NoDup q _ (searchDirectory_NoDup pwd pwd _ Hpwd)) as H1.
  assert (H3 : times_read q evs3 = 0%nat)
    by (destruct Hevs3 as [[-> _] | [-> _]]; reflexivity).
  destruct Hevs2 as [-> | [Hgo ->]].
  - cbn [times_read List.filter length]. change (times_read q []) with 0%nat.
    lia.
  - pose proof (times_read_NoDup q _
                  (searchDirectory_NoDup (GOPATH os) pwd _ Hgopath)) as H2.
    split; [lia | done].
Qed.

(** ** The pass from the working directory skips nothing *)

Lemma eqb_longer (s q : string) :
  (String.length q < String.length s)%nat -> String.eqb s q = false.
Proof. intros Hlt. apply String.eqb_neq. intros ->. lia. Qed.

Lemma searchEntry_short_pwd (fileInfo : FileInfo) :
  forall directory q1 q2,
    (String.length q1 <= String.length directory)%nat ->
    (String.length q2 <= String.length directory)%nat ->
    searchEntry directory q1 fileInfo = searchEntry directory q2 fileInfo.
Proof.
  induction fileInfo as [name loads | name | name fileInfos IH]
    using FileInfo_ind; intros directory q1 q2 H1 H2; cbn [searchEntry].
  - reflexivity.
  - rewrite (eqb_longer _ q1), (eqb_longer _ q2)
      by (rewrite join_path_length; lia).
    reflexivity.
  - rewrite (eqb_longer _ q1), (eqb_longer _ q2)
      by (rewrite join_path_length; lia).
    destruct (String.eqb name "i18n"); [reflexivity |].
    rewrite (for_each_ext (searchEntry (join_path directory name) q1)
               (searchEntry (join_path directory name) q2)); [reflexivity |].
    eapply Forall_impl; [exact IH |].
    intros entry Hentry. apply Hentry; rewrite join_path_length; lia.
Qed.

(** X16. In the search that starts at the working directory the test
    [fullPath == pwd] never holds: every path met is longer than the working
    directory, so the search is the same for any second argument that is not
    longer than the directory searched, and no directory is skipped. *)
Theorem first_pass_skips_nothing (pwd q : string)
    (listing : option (list FileInfo)) :
  (String.length q <= String.length pwd)%nat ->
  searchDirectory pwd pwd listing = searchDirectory pwd q listing /\
  forall name sub,
    searchEntry pwd pwd (Directory name sub) <> ([], Returns tt).
Proof.
  intros Hq. split.
  - unfold searchDirectory. destruct listing as [fileInfos |]; [| reflexivity].
    rewrite (for_each_ext (searchEntry pwd pwd) (searchEntry pwd q));
      [reflexivity |].
    apply Forall_forall. intros entry _. by apply searchEntry_short_pwd.
  - intros name sub. cbn [searchEntry].
    rewrite eqb_longer by (rewrite join_path_length; lia).
    destruct (String.eqb name "i18n").
    + unfold loadTranslationFiles. rewrite bind_emit. discriminate.
    + rewrite bind_emit. discriminate.
Qed.

(** ** What is loaded, and when the lookup function is bound *)

Lemma searchEntry_loads_resources (fileInfo : FileInfo) :
  forall directory pwd fileName,
    fileName ∈ loaded_files (searchEntry directory pwd fileInfo).1 ->
    resource_path fileName.
Proof.
  assert (Hfolder : forall directory listing fileName,
            fileName ∈ loaded_files
                         (loadTranslationFiles (join_path directory "i18n")
                            listing).1 ->
            resource_path fileName).
  { intros directory listing fileName Hin.
    destruct (loadTranslationFiles_events (join_path directory "i18n") listing)
      as (evs & Hevs & Himm).
    rewrite Hevs in Hin. apply elem_of_loaded_files in Hin.
    apply elem_of_cons in Hin as [Hin | Hin]; [discriminate |].
    rewrite Forall_forall in Himm.
    destruct (Himm _ Hin) as [Hlog | (l & entry & ok & _ & _ & Hres & Heq)];
      [discriminate |].
    injection Heq as -> _.
    exists directory, (FileInfo_Name entry).
    split; [done | by apply is_resource_ends_with]. }
  induction fileInfo as [name loads | name | name fileInfos IH]
    using FileInfo_ind; intros directory pwd fileName; cbn [searchEntry].
  - intros Hin. by apply elem_of_nil in Hin.
  - destruct (String.eqb _ pwd); [intros Hin; by apply elem_of_nil in Hin |].
    destruct (String.eqb_spec name "i18n") as [-> | _]; [apply Hfolder |].
    intros Hin. by apply elem_of_nil in Hin.
  - destruct (String.eqb _ pwd); [intros Hin; by apply elem_of_nil in Hin |].
    destruct (String.eqb_spec name "i18n") as [-> | _]; [apply Hfolder |].
    rewrite bind_emit. cbn [fst loaded_files]. intros Hin.
    apply elem_of_loaded_files, for_each_event in Hin as (entry & Hentry & Hev).
    apply elem_of_loaded_files in Hev.
    rewrite Forall_forall in IH. by eapply IH.
Qed.

Lemma searchDirectory_loads_resources (directory pwd : string)
    (listing : option (list FileInfo)) (fileName : string) :
  fileName ∈ loaded_files (searchDirectory directory pwd listing).1 ->
  resource_path fileName.
Proof.
  unfold searchDirectory. rewrite bind_emit. cbn [fst loaded_files].
  destruct listing as [fileInfos |];
    [| intros Hin; by apply elem_of_nil in Hin].
  intros Hin.
  apply elem_of_loaded_files, for_each_event in Hin as (entry & _ & Hev).
  apply elem_of_loaded_files in Hev. by eapply searchEntry_loads_resources.
Qed.


Lemma binds_lookup_app (evs1 evs2 : list Event) :
  binds_lookup (evs1 ++ evs2) = binds_lookup evs1 || binds_lookup evs2.
Proof.
  induction evs1 as [| ev evs1 IH]; [done |]. destruct ev; cbn; by rewrite ?IH.
Qed.

Lemma unbound_bind {A B : Type} (m : Eff A) (f : A -> Eff B) :
  binds_lookup m.1 = false -> (forall a, binds_lookup (f a).1 = false) ->
  binds_lookup (bind m f).1 = false.
Proof.
  intros Hm Hf. rewrite bind_events, binds_lookup_app, Hm.
  destruct (m.2); [apply Hf | reflexivity].
Qed.

Lemma unbound_for_each {A : Type} (body : A -> Eff unit) (l : list A) :
  Forall (fun x => binds_lookup (body x).1 = false) l ->
  binds_lookup (for_each body l).1 = false.
Proof.
  induction 1 as [| x rest Hx _ IH]; [done |].
  cbn [for_each]. by apply unbound_bind.
Qed.

Lemma loadTranslationFiles_unbound (directory : string)
    (listing : option (list FileInfo)) :
  binds_lookup (loadTranslationFiles directory listing).1 = false.
Proof.
  unfold loadTranslationFiles. apply unbound_bind; [done | intros _].
  destruct listing as [fileInfos |]; [| done].
  apply unbound_for_each, Forall_forall. intros entry _.
  unfold loadTranslationFile, MustLoadTranslationFile.
  destruct (negb _); [done |]. by destruct (loads_ok entry).
Qed.

Lemma searchEntry_unbound (fileInfo : FileInfo) :
  forall directory pwd,
    binds_lookup (searchEntry directory pwd fileInfo).1 = false.
Proof.
  induction fileInfo as [name loads | name | name fileInfos IH]
    using FileInfo_ind; intros directory pwd; cbn [searchEntry].
  - done.
  - destruct (String.eqb _ pwd); [done |].
    destruct (String.eqb name "i18n");
      [apply loadTranslationFiles_unbound | done].
  - destruct (String.eqb _ pwd); [done |].
    destruct (String.eqb name "i18n"); [apply loadTranslationFiles_unbound |].
    apply unbound_bind; [done | intros _].
    apply unbound_for_each. eapply Forall_impl; [exact IH |].
    intros entry Hentry. apply Hentry.
Qed.

Lemma searchDirectory_unbound (directory pwd : string)
    (listing : option (list FileInfo)) :
  binds_lookup (searchDirectory directory pwd listing).1 = false.
Proof.
  unfold searchDirectory. apply unbound_bind; [done | intros _].
  destruct listing as [fileInfos |]; [| done].
  apply unbound_for_each, Forall_forall. intros entry _.
  apply searchEntry_unbound.
Qed.

(** X18. LoadFiles returns an error only from [os.Getwd] or from
    [i18n.Tfunc], never because of what the directories hold; when
    [os.Getwd] fails nothing is read. The lookup function is bound exactly
    when LoadFiles returns after [os.Getwd] succeeded: not after a panic and
    not after a failed [os.Getwd]. *)
Theorem LoadFiles_errors_and_binding (os : OS GoError)
    (userLocale defaultLocal : string) :
  let run := LoadFiles os userLocale defaultLocal in
  (forall err, Getwd os = inr err ->
     run = ([EvLogError "LoadFiles"], Returns (Some err))) /\
  (forall err, run.2 = Returns (Some err) ->
     Getwd os = inr err \/ Tfunc_err userLocale defaultLocal = Some err) /\
  (binds_lookup run.1 = true <->
   exists pwd r, Getwd os = inl pwd /\ run.2 = Returns r).
Proof.
  cbn zeta. destruct (Getwd os) as [pwd | err] eqn:Hwd.
  - destruct (LoadFiles_events os userLocale defaultLocal pwd Hwd)
      as (evs1 & evs2 & evs3 & Hevs & -> & Hevs2 & Hevs3).
    split; [discriminate |].
    assert (Hsearch : binds_lookup
                        ((searchDirectory pwd pwd (ReadDir os pwd)).1 ++ evs2)
                      = false).
    { rewrite binds_lookup_app, searchDirectory_unbound.
      destruct Hevs2 as [-> | [_ ->]];
        [done | apply searchDirectory_unbound]. }
    rewrite Hevs, app_assoc, binds_lookup_app, Hsearch.
    destruct Hevs3 as [[-> Hout] | [-> Hout]]; rewrite Hout; cbn.
    + split; [discriminate |].
      split; [discriminate | intros (? & ? & _ & [=])].
    + split; [intros e [= ->]; by right |].
      split; [intros _; by eexists _, _ | done].
  - unfold LoadFiles. rewrite Hwd. cbn.
    split; [by intros e [= ->] |].
    split; [intros e [= ->]; by left |].
    split; [discriminate | intros (? & ? & [=] & _)].
Qed.

End More.

#[local] Existing Instance sample_i18n.

Lemma loadTranslationFile_by_suffix_witness :
  ends_with ".json" "en-US.all.json" /\
  loadTranslationFile "/w/i18n" (File "en-US.all.json" true)
  = ([EvLoadFile "/w/i18n/en-US.all.json" true], Returns tt).
Proof.
  assert (Hends : ends_with ".json" "en-US.all.json")
    by (by exists "en-US.all").
  split; [exact Hends |].
  destruct (loadTranslationFile_by_suffix "/w/i18n" (File "en-US.all.json" true))
    as (_ & Hload & _).
  exact (Hload Hends).
Defined.



Lemma example_root_well_formed : well_formed_listing (Some example_root).
Proof.
  split.
  - apply NoDup_ListNoDup. repeat constructor; cbn; intuition discriminate.
  - repeat constructor; cbn; repeat split;
      intros Hin%list_elem_of_In; cbn in Hin; intuition discriminate.
Qed.

Lemma searchDirectory_reads_once_witness :
  well_formed_listing (Some example_root) /\
  (times_read "root/x" (searchDirectory "root" "root" (Some example_root)).1
   <= 1)%nat.
Proof.
  split; [exact example_root_well_formed |].
  exact (proj2 (searchDirectory_reads_once "root" "root" _
                  example_root_well_formed) "root/x").
Defined.

Lemma LoadFiles_reads_at_most_twice_witness :
  Getwd (@os_no_gopath GoError) = inl "root" /\
  (times_read "root/i18n" (LoadFiles os_no_gopath "en-US" "en-US").1 <= 1)%nat.
Proof.
  assert (Hwd : Getwd (@os_no_gopath GoError) = inl "root") by reflexivity.
  assert (Hgo : GOPATH (@os_no_gopath GoError) = "") by reflexivity.
  split; [exact Hwd |].
  destruct (LoadFiles_reads_at_most_twice os_no_gopath "en-US" "en-US" "root"
              Hwd example_root_well_formed I "root/i18n") as [_ Honce].
  exact (Honce Hgo).
Defined.

Lemma first_pass_skips_nothing_witness :
  (String.length "" <= String.length "root")%nat /\
  searchDirectory "root" "root" (Some example_root)
  = searchDirectory "root" "" (Some example_root).
Proof.
  assert (Hle : (String.length "" <= String.length "root")%nat) by (cbn; lia).
  split; [exact Hle |].
  exact (proj1 (first_pass_skips_nothing "root" "" (Some example_root) Hle)).
Defined.


End localize_more.
